(** * Fleet registry (main.go): a shallow embedding and its properties

    The Go program keeps a [map[string]*Truck] behind a [sync.RWMutex].
    The embedding keeps the three things the code touches:
      - the map of the manager, from ids to pointers;
      - the mutex embedded in the manager;
      - the [Truck] objects those pointers refer to.
    Every method of [*truckManager] is a computation on that memory which
    returns, panics (dereference of a pointer that refers to no object,
    release of a mutex that is not held) or blocks (acquiring a held
    mutex).  The manager is the one [NewTruckManager] builds, so its map
    is allocated.  Go's [int] is a 64-bit integer; the code only compares
    it with zero and stores it, so [Z] is used and every statement below
    holds in particular for the 64-bit range.

    Sequential calls are the methods themselves, run on a memory whose
    mutex is free.  Concurrent calls of [AddTruck] are goroutines that run
    the same body one statement at a time under any schedule. *)

From stdpp Require Import gmap strings list fin_maps relations.

Open Scope Z_scope.

(** ** Data model *)

(** [var ( ErrTruckNotFound ... ErrEmptyID )]; a Go [error] result is
    [option error], [None] being [nil]. *)
Inductive error :=
  | ErrTruckNotFound
  | ErrTruckExist
  | ErrInvalidCargo
  | ErrEmptyID.

#[global] Instance error_eq_dec : EqDecision error.
Proof. solve_decision. Defined.

(** [type Truck struct { ID string; Cargo int }] *)
Record Truck := mkTruck { ID : string; Cargo : Z }.

(** The zero value [Truck{}]. *)
Definition Truck_zero : Truck := {| ID := ""; Cargo := 0 |}.

(** A [*Truck]: the index of an object in [objs]. *)
Abbreviation loc := nat (only parsing).

(** [sync.RWMutex]: one writer or any number of readers. *)
Record RWMutex := mkRWMutex { writer : bool; readers : nat }.

Definition RWMutex_zero : RWMutex := {| writer := false; readers := 0 |}.

(** The memory the methods run on: the two fields of the one
    [truckManager] ([trucks] and the embedded mutex) and the allocated
    [Truck] objects.  Objects are never reclaimed while the model runs, so
    a new object always gets the next index. *)
Record memory := mkMemory {
  trucks : gmap string loc;
  mu : RWMutex;
  objs : list Truck
}.

Definition set_trucks (f : gmap string loc → gmap string loc) (m : memory) : memory :=
  {| trucks := f (trucks m); mu := mu m; objs := objs m |}.
Definition set_mu (f : RWMutex → RWMutex) (m : memory) : memory :=
  {| trucks := trucks m; mu := f (mu m); objs := objs m |}.
Definition set_objs (f : list Truck → list Truck) (m : memory) : memory :=
  {| trucks := trucks m; mu := mu m; objs := f (objs m) |}.

(** ** The monad of method bodies *)

Inductive outcome (A : Type) :=
  | Return (a : A) (m : memory)
  | Panic
  | Blocked.
Arguments Return {A} a m.
Arguments Panic {A}.
Arguments Blocked {A}.

Definition M (A : Type) : Type := memory → outcome A.

#[global] Instance M_ret : MRet M := λ A a m, Return a m.
#[global] Instance M_bind : MBind M := λ A B f c m,
  match c m with
  | Return a m' => f a m'
  | Panic => Panic
  | Blocked => Blocked
  end.

Definition modify (f : memory → memory) : M unit := λ m, Return tt (f m).

(** [defer d]: [d] runs when the body returns; the body's result is the
    function's result. *)
Definition defer {A} (d : M unit) (body : M A) : M A :=
  r ← body; d;; mret r.

(** *** Primitives *)

(** [tm.Lock()] *)
Definition Lock : M unit := λ m,
  if writer (mu m) then Blocked
  else match readers (mu m) with
       | O => Return tt (set_mu (λ _, {| writer := true; readers := 0 |}) m)
       | S _ => Blocked
       end.

(** [tm.Unlock()] *)
Definition Unlock : M unit := λ m,
  if writer (mu m)
  then Return tt (set_mu (λ k, {| writer := false; readers := readers k |}) m)
  else Panic.

(** [tm.RLock()] *)
Definition RLock : M unit := λ m,
  if writer (mu m) then Blocked
  else Return tt (set_mu (λ k, {| writer := false; readers := S (readers k) |}) m).

(** [tm.RUnlock()] *)
Definition RUnlock : M unit := λ m,
  match readers (mu m) with
  | O => Panic
  | S n => Return tt (set_mu (λ k, {| writer := writer k; readers := n |}) m)
  end.

(** [&Truck{...}] *)
Definition new_Truck (t : Truck) : M loc := λ m,
  Return (length (objs m)) (set_objs (λ h, h ++ [t]) m).

(** [*p] *)
Definition load (p : loc) : M Truck := λ m,
  match objs m !! p with
  | Some t => Return t m
  | None => Panic
  end.

(** [p.Cargo = c] *)
Definition store_Cargo (p : loc) (c : Z) : M unit := λ m,
  match objs m !! p with
  | Some t => Return tt (set_objs (λ h, <[p := {| ID := ID t; Cargo := c |}]> h) m)
  | None => Panic
  end.

(** [v, exist := tm.trucks[id]] *)
Definition map_lookup (id : string) : M (option loc) := λ m,
  Return (trucks m !! id) m.

(** [tm.trucks[id] = p] *)
Definition map_assign (id : string) (p : loc) : M unit :=
  modify (set_trucks (λ t, <[id := p]> t)).

(** [delete(tm.trucks, id)] *)
Definition map_delete (id : string) : M unit :=
  modify (set_trucks (λ t, delete id t)).

(** ** The program *)

(** [func NewTruckManager() truckManager] *)
Definition NewTruckManager : memory :=
  {| trucks := ∅; mu := RWMutex_zero; objs := [] |}.

(** [func (tm *truckManager) AddTruck(id string, cargo int) error] *)
Definition AddTruck (id : string) (cargo : Z) : M (option error) :=
  Lock;;
  defer Unlock (
    if decide (id = "") then mret (Some ErrEmptyID)
    else if decide (cargo < 0) then mret (Some ErrInvalidCargo)
    else
      e ← map_lookup id;
      match e with
      | Some _ => mret (Some ErrTruckExist)
      | None =>
          p ← new_Truck {| ID := id; Cargo := cargo |};
          map_assign id p;;
          mret None
      end).

(** [func (tm *truckManager) GetTruck(id string) (Truck, error)] *)
Definition GetTruck (id : string) : M (Truck * option error) :=
  if decide (id = "") then mret (Truck_zero, Some ErrEmptyID)
  else
    RLock;;
    defer RUnlock (
      e ← map_lookup id;
      match e with
      | None => mret (Truck_zero, Some ErrTruckNotFound)
      | Some truck => t ← load truck; mret (t, None)
      end).

(** [func (tm *truckManager) UpdateTruckCargo(id string, cargo int) error] *)
Definition UpdateTruckCargo (id : string) (cargo : Z) : M (option error) :=
  if decide (id = "") then mret (Some ErrEmptyID)
  else if decide (cargo < 0) then mret (Some ErrInvalidCargo)
  else
    Lock;;
    defer Unlock (
      e ← map_lookup id;
      match e with
      | None => mret (Some ErrTruckNotFound)
      | Some truck => store_Cargo truck cargo;; mret None
      end).

(** [func (tm *truckManager) RemoveTruck(id string) error] *)
Definition RemoveTruck (id : string) : M (option error) :=
  Lock;;
  defer Unlock (
    if decide (id = "") then mret (Some ErrEmptyID)
    else
      e ← map_lookup id;
      match e with
      | None => mret (Some ErrTruckNotFound)
      | Some _ => map_delete id;; mret None
      end).

(** The memory a call leaves (the memory it started on if it does not
    return) and the value it returns. *)
Definition after {A} (c : M A) (m : memory) : memory :=
  match c m with
  | Return _ m' => m'
  | _ => m
  end.

Definition result {A} (c : M A) (m : memory) : option A :=
  match c m with
  | Return a _ => Some a
  | _ => None
  end.

(** ** Registries

    What [main] does: each call runs on the memory the previous one left. *)
Definition main_m1 : memory := after (AddTruck "truck1" 1000) NewTruckManager.
Definition main_m2 : memory := after (AddTruck "truck2" 2000) main_m1.
Definition main_m3 : memory := after (AddTruck "truck1" 1500) main_m2.
Definition main_m4 : memory := after (UpdateTruckCargo "truck1" 1500) main_m3.
Definition main_m5 : memory := after (RemoveTruck "truck1") main_m4.

(** Between two calls nobody holds the mutex. *)
Definition idle (m : memory) : Prop := mu m = RWMutex_zero.

(** The registries of the program: the one [NewTruckManager] builds and
    those left by a call that returned on a registry of the program. *)
Inductive reachable : memory → Prop :=
  | reach_New : reachable NewTruckManager
  | reach_Add m id cargo r m' :
      reachable m → AddTruck id cargo m = Return r m' → reachable m'
  | reach_Get m id r m' :
      reachable m → GetTruck id m = Return r m' → reachable m'
  | reach_Update m id cargo r m' :
      reachable m → UpdateTruckCargo id cargo m = Return r m' → reachable m'
  | reach_Remove m id r m' :
      reachable m → RemoveTruck id m = Return r m' → reachable m'.

(** The representation invariant used in the proofs: the mutex is free,
    and every key is non-empty and points to an object carrying that key
    and a cargo that is not negative. *)
Definition wf (m : memory) : Prop :=
  idle m ∧
  ∀ id p, trucks m !! id = Some p →
    id ≠ "" ∧ ∃ t, objs m !! p = Some t ∧ ID t = id ∧ 0 ≤ Cargo t.

(** The keys of the registry, as [range tm.trucks] would list them, and
    its size, [len(tm.trucks)]. *)
Definition keys (m : memory) : list string := (map_to_list (trucks m)).*1.
Definition registry_size (m : memory) : nat := size (trucks m).

(** The invariant of the data model: keys are non-empty and unique, every
    stored record has a cargo that is not negative. *)
Definition registry_invariant (m : memory) : Prop :=
  (∀ id, id ∈ keys m → id ≠ "") ∧
  NoDup (keys m) ∧
  (∀ id p, trucks m !! id = Some p → ∃ t, objs m !! p = Some t ∧ 0 ≤ Cargo t).

(** A caller that keeps the value [GetTruck] returned in a variable of its
    own and assigns to its field, [truck.Cargo = c]: the variable is an
    object of its own, and the caller reads back what it wrote. *)
Definition mutate_copy (t : Truck) (c : Z) : M Truck :=
  v ← new_Truck t;
  store_Cargo v c;;
  load v.

(** ** Goroutines calling [AddTruck]

    The body of [AddTruck], one statement per step, so that goroutines
    interleave between any two statements.  The program counter names the
    statement to run next. *)
Inductive pc :=
  | AtLock                        (* tm.Lock() *)
  | AtCheckID                     (* if id == "" *)
  | AtCheckCargo                  (* if cargo < 0 *)
  | AtLookup                      (* if _, exist := tm.trucks[id]; exist *)
  | AtInsert                      (* tm.trucks[id] = &Truck{...} *)
  | AtUnlock (r : option error)   (* return r: the deferred tm.Unlock() *)
  | Returned (r : option error)
  | Crashed.

#[global] Instance pc_eq_dec : EqDecision pc.
Proof. solve_decision. Defined.

Record goroutine := mkGoroutine { g_id : string; g_cargo : Z; g_pc : pc }.

Definition goto (g : goroutine) (k : pc) : goroutine :=
  {| g_id := g_id g; g_cargo := g_cargo g; g_pc := k |}.

(** One statement of goroutine [g] on memory [m]; [None] when [g] cannot
    move: it waits for the mutex, it has returned or it has crashed.  (A
    crash would end the whole program; here the goroutine just stops, and
    the theorems show that none crashes.) *)
Definition goroutine_step (g : goroutine) (m : memory) : option (goroutine * memory) :=
  match g_pc g with
  | AtLock =>
      match Lock m with
      | Return _ m' => Some (goto g AtCheckID, m')
      | Panic => Some (goto g Crashed, m)
      | Blocked => None
      end
  | AtCheckID =>
      if decide (g_id g = "") then Some (goto g (AtUnlock (Some ErrEmptyID)), m)
      else Some (goto g AtCheckCargo, m)
  | AtCheckCargo =>
      if decide (g_cargo g < 0) then Some (goto g (AtUnlock (Some ErrInvalidCargo)), m)
      else Some (goto g AtLookup, m)
  | AtLookup =>
      match trucks m !! g_id g with
      | Some _ => Some (goto g (AtUnlock (Some ErrTruckExist)), m)
      | None => Some (goto g AtInsert, m)
      end
  | AtInsert =>
      match (p ← new_Truck {| ID := g_id g; Cargo := g_cargo g |};
             map_assign (g_id g) p) m with
      | Return _ m' => Some (goto g (AtUnlock None), m')
      | Panic => Some (goto g Crashed, m)
      | Blocked => None
      end
  | AtUnlock r =>
      match Unlock m with
      | Return _ m' => Some (goto g (Returned r), m')
      | Panic => Some (goto g Crashed, m)
      | Blocked => None
      end
  | Returned _ => None
  | Crashed => None
  end.

(** A goroutine running alone, for at most [fuel] statements. *)
Fixpoint run_goroutine (fuel : nat) (g : goroutine) (m : memory) : goroutine * memory :=
  match fuel with
  | O => (g, m)
  | S k =>
      match goroutine_step g m with
      | Some (g', m') => run_goroutine k g' m'
      | None => (g, m)
      end
  end.

(** The goroutines and the memory they share. *)
Record config := mkConfig { pool : list goroutine; shared : memory }.

(** Any goroutine that can move may be the next to move. *)
Inductive step : relation config :=
  | step_goroutine gs1 g gs2 m g' m' :
      goroutine_step g m = Some (g', m') →
      step {| pool := gs1 ++ g :: gs2; shared := m |}
           {| pool := gs1 ++ g' :: gs2; shared := m' |}.

(** [go tm.AddTruck(id, cargo)] for each call of the list. *)
Definition spawn (calls : list (string * Z)) (m : memory) : config :=
  {| pool := (λ c, {| g_id := c.1; g_cargo := c.2; g_pc := AtLock |}) <$> calls;
     shared := m |}.

(** The scheduler made explicit: the [i]-th goroutine moves, for each [i]
    of the schedule in turn. *)
Fixpoint run_schedule (sched : list nat) (c : config) : option config :=
  match sched with
  | [] => Some c
  | i :: sched' =>
      match pool c !! i with
      | None => None
      | Some g =>
          match goroutine_step g (shared c) with
          | None => None
          | Some (g', m') =>
              run_schedule sched' {| pool := <[i := g']> (pool c); shared := m' |}
          end
      end
  end.

(** Between [tm.Lock()] and the deferred [tm.Unlock()]. *)
Definition in_critical (g : goroutine) : bool :=
  match g_pc g with
  | AtCheckID | AtCheckCargo | AtLookup | AtInsert | AtUnlock _ => true
  | AtLock | Returned _ | Crashed => false
  end.

Definition critical_count (gs : list goroutine) : nat :=
  sum_list_with (λ g, Nat.b2n (in_critical g)) gs.

Definition has_returned (g : goroutine) : Prop := ∃ r, g_pc g = Returned r.

#[global] Instance has_returned_dec g : Decision (has_returned g).
Proof.
  unfold has_returned. destruct (g_pc g) as [| | | | | r | r |];
    first [ left; eexists; reflexivity | right; intros [? ?]; discriminate ].
Defined.

Definition completed (c : config) : Prop := Forall has_returned (pool c).

(** Statements a goroutine still has to run, at most. *)
Definition remaining (g : goroutine) : nat :=
  match g_pc g with
  | AtLock => 6
  | AtCheckID => 5
  | AtCheckCargo => 4
  | AtLookup => 3
  | AtInsert => 2
  | AtUnlock _ => 1
  | Returned _ | Crashed => 0
  end.

Definition valid_call (c : string * Z) : Prop := c.1 ≠ "" ∧ 0 ≤ c.2.

(** The concurrency property for any registry of the program, whether or
    not it already holds some of the ids. *)
Definition concurrent_adds_on_any_registry : Prop :=
  ∀ (calls : list (string * Z)) (m : memory) (c : config),
    reachable m →
    NoDup calls.*1 →
    Forall valid_call calls →
    rtc step (spawn calls m) c →
    completed c →
    ∀ id cargo, (id, cargo) ∈ calls →
      GetTruck id (shared c) = Return ({| ID := id; Cargo := cargo |}, None) (shared c).

(** The call a goroutine makes. *)
Definition call_of (g : goroutine) : string * Z := (g_id g, g_cargo g).

Definition total_remaining (gs : list goroutine) : nat := sum_list_with remaining gs.

(** What holds of each goroutine while distinct, valid, new ids are added:
    before its insertion the id is not in the map; from its insertion on
    the map holds its record and the call returns [nil]. *)
Definition goroutine_inv (m : memory) (g : goroutine) : Prop :=
  g_id g ≠ "" ∧ 0 ≤ g_cargo g ∧
  match g_pc g with
  | AtLock | AtCheckID | AtCheckCargo | AtLookup | AtInsert =>
      trucks m !! g_id g = None
  | AtUnlock r | Returned r =>
      r = None ∧
      ∃ p, trucks m !! g_id g = Some p ∧
           objs m !! p = Some {| ID := g_id g; Cargo := g_cargo g |}
  | Crashed => False
  end.

(** The mutex is write-locked exactly while one goroutine is between
    [Lock] and [Unlock]. *)
Definition config_inv (c : config) : Prop :=
  Forall (goroutine_inv (shared c)) (pool c) ∧
  NoDup (g_id <$> pool c) ∧
  readers (mu (shared c)) = 0%nat ∧
  critical_count (pool c) = Nat.b2n (writer (mu (shared c))).

(** Two goroutines on the registry [main] has after its two first adds,
    under a schedule that lets the second take the mutex first: two new
    ids, and one id the registry holds (its goroutine returns after five
    statements). *)
Definition two_new_calls : list (string * Z) := [("truck3", 3000); ("truck4", 4000)].
Definition one_old_call : list (string * Z) := [("truck1", 1500); ("truck3", 3000)].
Definition second_first : list nat := [1; 1; 1; 1; 1; 1; 0; 0; 0; 0; 0; 0]%nat.
Definition second_first_old : list nat := [1; 1; 1; 1; 1; 1; 0; 0; 0; 0; 0]%nat.

Definition final_of (sched : list nat) (c : config) : config :=
  default c (run_schedule sched c).

(** ** What a client can observe

    [GetTruck] answers in [m'] as it does in [m]: for every id but [id],
    and for every id. *)
Definition others_unchanged (id : string) (m m' : memory) : Prop :=
  ∀ id' r, id' ≠ id → GetTruck id' m = Return r m → GetTruck id' m' = Return r m'.

Definition same_answers (m m' : memory) : Prop :=
  ∀ id r, GetTruck id m = Return r m → GetTruck id m' = Return r m'.

(** The memory with its mutex in state [k]: what a method finds when
    other goroutines hold the mutex. *)
Definition with_mu (k : RWMutex) (m : memory) : memory := set_mu (λ _, k) m.

(** ** Goroutines calling any of the four methods

    Every method, one statement per step.  A worker is a goroutine that
    makes one call; its label names the statement it runs next.  A reader
    may take the mutex whenever no writer holds it; Go makes new readers
    wait once a writer is waiting, which removes schedules and adds
    none. *)
Inductive call :=
  | CallAdd (id : string) (cargo : Z)
  | CallGet (id : string)
  | CallUpdate (id : string) (cargo : Z)
  | CallRemove (id : string).

(** What a call returns: an [error], or for [GetTruck] a [Truck] and an
    [error]. *)
Inductive reply :=
  | Err (e : option error)
  | Got (t : Truck) (e : option error).

(** The call, made by the only goroutine there is. *)
Definition run_call (c : call) : M reply :=
  match c with
  | CallAdd id cargo => e ← AddTruck id cargo; mret (Err e)
  | CallGet id => r ← GetTruck id; mret (Got r.1 r.2)
  | CallUpdate id cargo => e ← UpdateTruckCargo id cargo; mret (Err e)
  | CallRemove id => e ← RemoveTruck id; mret (Err e)
  end.

Inductive label :=
  | LLock                     (* tm.Lock(), or tm.RLock() in GetTruck *)
  | LCheckID                  (* if id == "" *)
  | LCheckCargo               (* if cargo < 0 *)
  | LLookup                   (* truck, exist := tm.trucks[id] *)
  | LAct (p : option nat)     (* the statement after the lookup; [p] is
                                 the pointer the lookup found *)
  | LUnlock (r : reply)       (* return r: the deferred Unlock or RUnlock *)
  | LDone (r : reply)
  | LCrash.

Record worker := mkWorker { w_call : call; w_at : label }.

Definition at_label (w : worker) (l : label) : worker :=
  {| w_call := w_call w; w_at := l |}.

(** The first statement of each method. *)
Definition entry (c : call) : label :=
  match c with
  | CallAdd _ _ | CallRemove _ => LLock
  | CallGet _ | CallUpdate _ _ => LCheckID
  end.

(** A statement that runs a primitive: on to [l] with the memory it
    leaves, a crash if it panics, no move if it blocks. *)
Definition exec {A} (w : worker) (c : M A) (l : A → label) (m : memory) :
    option (worker * memory) :=
  match c m with
  | Return a m' => Some (at_label w (l a), m')
  | Panic => Some (at_label w LCrash, m)
  | Blocked => None
  end.

(** One statement of worker [w]. *)
Definition worker_step (w : worker) (m : memory) : option (worker * memory) :=
  match w_call w, w_at w with
  (* AddTruck: lines 45-70 *)
  | CallAdd id cargo, LLock => exec w Lock (λ _, LCheckID) m
  | CallAdd id cargo, LCheckID =>
      if decide (id = "") then Some (at_label w (LUnlock (Err (Some ErrEmptyID))), m)
      else Some (at_label w LCheckCargo, m)
  | CallAdd id cargo, LCheckCargo =>
      if decide (cargo < 0) then Some (at_label w (LUnlock (Err (Some ErrInvalidCargo))), m)
      else Some (at_label w LLookup, m)
  | CallAdd id cargo, LLookup =>
      match trucks m !! id with
      | Some _ => Some (at_label w (LUnlock (Err (Some ErrTruckExist))), m)
      | None => Some (at_label w (LAct None), m)
      end
  | CallAdd id cargo, LAct _ =>
      exec w (p ← new_Truck {| ID := id; Cargo := cargo |}; map_assign id p)
           (λ _, LUnlock (Err None)) m
  | CallAdd id cargo, LUnlock r => exec w Unlock (λ _, LDone r) m
  (* GetTruck: lines 73-88 *)
  | CallGet id, LCheckID =>
      if decide (id = "") then Some (at_label w (LDone (Got Truck_zero (Some ErrEmptyID))), m)
      else Some (at_label w LLock, m)
  | CallGet id, LLock => exec w RLock (λ _, LLookup) m
  | CallGet id, LLookup =>
      match trucks m !! id with
      | None => Some (at_label w (LUnlock (Got Truck_zero (Some ErrTruckNotFound))), m)
      | Some p => Some (at_label w (LAct (Some p)), m)
      end
  | CallGet id, LAct (Some p) => exec w (load p) (λ t, LUnlock (Got t None)) m
  | CallGet id, LUnlock r => exec w RUnlock (λ _, LDone r) m
  (* UpdateTruckCargo: lines 91-111 *)
  | CallUpdate id cargo, LCheckID =>
      if decide (id = "") then Some (at_label w (LDone (Err (Some ErrEmptyID))), m)
      else Some (at_label w LCheckCargo, m)
  | CallUpdate id cargo, LCheckCargo =>
      if decide (cargo < 0) then Some (at_label w (LDone (Err (Some ErrInvalidCargo))), m)
      else Some (at_label w LLock, m)
  | CallUpdate id cargo, LLock => exec w Lock (λ _, LLookup) m
  | CallUpdate id cargo, LLookup =>
      match trucks m !! id with
      | None => Some (at_label w (LUnlock (Err (Some ErrTruckNotFound))), m)
      | Some p => Some (at_label w (LAct (Some p)), m)
      end
  | CallUpdate id cargo, LAct (Some p) =>
      exec w (store_Cargo p cargo) (λ _, LUnlock (Err None)) m
  | CallUpdate id cargo, LUnlock r => exec w Unlock (λ _, LDone r) m
  (* RemoveTruck: lines 114-129 *)
  | CallRemove id, LLock => exec w Lock (λ _, LCheckID) m
  | CallRemove id, LCheckID =>
      if decide (id = "") then Some (at_label w (LUnlock (Err (Some ErrEmptyID))), m)
      else Some (at_label w LLookup, m)
  | CallRemove id, LLookup =>
      match trucks m !! id with
      | None => Some (at_label w (LUnlock (Err (Some ErrTruckNotFound))), m)
      | Some p => Some (at_label w (LAct (Some p)), m)
      end
  | CallRemove id, LAct _ => exec w (map_delete id) (λ _, LUnlock (Err None)) m
  | CallRemove id, LUnlock r => exec w Unlock (λ _, LDone r) m
  (* returned, crashed, or a label the method does not have *)
  | _, _ => None
  end.

(** A worker running alone, for at most [fuel] statements. *)
Fixpoint run_worker (fuel : nat) (w : worker) (m : memory) : worker * memory :=
  match fuel with
  | O => (w, m)
  | S k =>
      match worker_step w m with
      | Some (w', m') => run_worker k w' m'
      | None => (w, m)
      end
  end.

(** The workers and the memory they share. *)
Record fleet := mkFleet { workers : list worker; fmem : memory }.

Inductive fleet_step : relation fleet :=
  | fleet_step_worker ws1 w ws2 m w' m' :
      worker_step w m = Some (w', m') →
      fleet_step {| workers := ws1 ++ w :: ws2; fmem := m |}
                 {| workers := ws1 ++ w' :: ws2; fmem := m' |}.

(** [go] for each call of the list. *)
Definition launch (calls : list call) (m : memory) : fleet :=
  {| workers := (λ c, {| w_call := c; w_at := entry c |}) <$> calls; fmem := m |}.

Fixpoint run_fleet (sched : list nat) (f : fleet) : option fleet :=
  match sched with
  | [] => Some f
  | i :: sched' =>
      match workers f !! i with
      | None => None
      | Some w =>
          match worker_step w (fmem f) with
          | None => None
          | Some (w', m') =>
              run_fleet sched' {| workers := <[i := w']> (workers f); fmem := m' |}
          end
      end
  end.

(** Who holds the mutex: a worker between [Lock] and the deferred
    [Unlock], or (in [GetTruck]) between [RLock] and [RUnlock]. *)
Definition holds_write (w : worker) : bool :=
  match w_call w, w_at w with
  | CallAdd _ _, (LCheckID | LCheckCargo | LLookup | LAct _ | LUnlock _) => true
  | CallUpdate _ _, (LLookup | LAct _ | LUnlock _) => true
  | CallRemove _, (LCheckID | LLookup | LAct _ | LUnlock _) => true
  | _, _ => false
  end.

Definition holds_read (w : worker) : bool :=
  match w_call w, w_at w with
  | CallGet _, (LLookup | LAct _ | LUnlock _) => true
  | _, _ => false
  end.

Definition writers_in (ws : list worker) : nat :=
  sum_list_with (λ w, Nat.b2n (holds_write w)) ws.
Definition readers_in (ws : list worker) : nat :=
  sum_list_with (λ w, Nat.b2n (holds_read w)) ws.

(** The reply of a worker whose call has returned. *)
Definition returned (w : worker) : option (call * reply) :=
  match w_at w with
  | LDone r => Some (w_call w, r)
  | _ => None
  end.

Definition all_returned (f : fleet) : Prop :=
  Forall (λ w, is_Some (returned w)) (workers f).



(** The calls run one after the other, each on the memory the one before
    left, with the replies listed. *)
Fixpoint in_sequence (l : list (call * reply)) (m m' : memory) : Prop :=
  match l with
  | [] => m' = m
  | (c, r) :: l' => ∃ m1, run_call c m = Return r m1 ∧ in_sequence l' m1 m'
  end.

(** The memory once the mutex is free again. *)
Definition quiet (m : memory) : memory := with_mu RWMutex_zero m.

(** The calls whose effect is in the memory, with what they return: those
    of the workers at their deferred unlock or past it. *)
Definition settled (w : worker) : option (call * reply) :=
  match w_at w with
  | LUnlock r | LDone r => Some (w_call w, r)
  | _ => None
  end.

(** What a worker knows at its label: the tests it has passed, and what
    its lookup found in the map. *)
Definition worker_inv (m : memory) (w : worker) : Prop :=
  match w_call w, w_at w with
  | CallAdd id cargo, (LLock | LCheckID) => True
  | CallAdd id cargo, LCheckCargo => id ≠ ""
  | CallAdd id cargo, LLookup => id ≠ "" ∧ 0 ≤ cargo
  | CallAdd id cargo, LAct _ => id ≠ "" ∧ 0 ≤ cargo ∧ trucks m !! id = None
  | CallGet id, LCheckID => True
  | CallGet id, (LLock | LLookup) => id ≠ ""
  | CallGet id, LAct q => id ≠ "" ∧ ∃ p, q = Some p ∧ trucks m !! id = Some p
  | CallUpdate id cargo, LCheckID => True
  | CallUpdate id cargo, LCheckCargo => id ≠ ""
  | CallUpdate id cargo, (LLock | LLookup) => id ≠ "" ∧ 0 ≤ cargo
  | CallUpdate id cargo, LAct q =>
      id ≠ "" ∧ 0 ≤ cargo ∧ ∃ p, q = Some p ∧ trucks m !! id = Some p
  | CallRemove id, (LLock | LCheckID) => True
  | CallRemove id, LLookup => id ≠ ""
  | CallRemove id, LAct _ => id ≠ "" ∧ is_Some (trucks m !! id)
  | _, (LUnlock _ | LDone _) => True
  | _, _ => False
  end.

(** The invariant of a fleet started on [m0]: the memory, mutex aside, is
    what the settled calls leave when run in the order [lin]; the mutex
    counts the workers that hold it. *)
Definition fleet_inv (m0 : memory) (lin : list (call * reply)) (f : fleet) : Prop :=
  reachable (quiet (fmem f)) ∧
  in_sequence lin m0 (quiet (fmem f)) ∧
  lin ≡ₚ omap settled (workers f) ∧
  readers (mu (fmem f)) = readers_in (workers f) ∧
  Nat.b2n (writer (mu (fmem f))) = writers_in (workers f) ∧
  (writer (mu (fmem f)) = true → readers (mu (fmem f)) = 0%nat) ∧
  Forall (worker_inv (fmem f)) (workers f).

(** Five goroutines on the registry [main] has after its two adds, one
    call of each method and a second [GetTruck]; in the schedule the two
    [GetTruck] hold the read lock together. *)
Definition five_calls : list call :=
  [CallAdd "truck3" 3000; CallGet "truck1"; CallUpdate "truck2" 5;
   CallRemove "truck1"; CallGet "truck2"].
Definition five_schedule : list nat :=
  [1; 2; 2; 4; 0; 0; 0; 0; 0; 0; 1; 4; 1; 4; 1; 4; 4; 1; 2; 2; 2; 2; 3; 3; 3; 3; 3]%nat.
Definition five_final : fleet :=
  default (launch five_calls main_m2) (run_fleet five_schedule (launch five_calls main_m2)).

(** The successful [AddTruck] of [id], counted. *)
Definition adds_of (id : string) (x : call * reply) : nat :=
  match x with
  | (CallAdd id' _, Err None) => if decide (id' = id) then 1%nat else 0%nat
  | _ => 0%nat
  end.

Definition removes (id : string) (c : call) : Prop :=
  match c with
  | CallRemove id' => id' = id
  | _ => False
  end.

(** 1 if the registry holds [id], else 0. *)
Definition held (id : string) (m : memory) : nat :=
  match trucks m !! id with
  | Some _ => 1%nat
  | None => 0%nat
  end.

(** Two goroutines adding the same id, and two updating the same truck;
    in both schedules the second goroutine takes the mutex first. *)
Definition same_id_adds : list call := [CallAdd "truck3" 1; CallAdd "truck3" 2].
Definition same_id_schedule : list nat := [1; 1; 1; 1; 1; 1; 0; 0; 0; 0; 0]%nat.
Definition same_id_final : fleet :=
  default (launch same_id_adds main_m2)
          (run_fleet same_id_schedule (launch same_id_adds main_m2)).

Definition two_updates : list call := [CallUpdate "truck1" 7; CallUpdate "truck1" 9].
Definition two_updates_schedule : list nat := [0; 1; 1; 1; 1; 1; 1; 0; 0; 0; 0; 0]%nat.
Definition two_updates_final : fleet :=
  default (launch two_updates main_m2)
          (run_fleet two_updates_schedule (launch two_updates main_m2)).

(** A valid update of [id]. *)
Definition updates (id : string) (c : call) : Prop :=
  ∃ k, c = CallUpdate id k ∧ 0 ≤ k.

(** ** The registry as a map from ids to cargos

    What a client can learn of the registry: the cargo stored under each
    id. *)
Definition view (m : memory) : gmap string Z :=
  omap (λ p, Cargo <$> objs m !! p) (trucks m).

(** The four methods on that map: the reply and the map afterwards. *)
Definition on_view (c : call) (s : gmap string Z) : reply * gmap string Z :=
  match c with
  | CallAdd id cargo =>
      if decide (id = "") then (Err (Some ErrEmptyID), s)
      else if decide (cargo < 0) then (Err (Some ErrInvalidCargo), s)
      else match s !! id with
           | Some _ => (Err (Some ErrTruckExist), s)
           | None => (Err None, <[id := cargo]> s)
           end
  | CallGet id =>
      if decide (id = "") then (Got Truck_zero (Some ErrEmptyID), s)
      else match s !! id with
           | None => (Got Truck_zero (Some ErrTruckNotFound), s)
           | Some k => (Got {| ID := id; Cargo := k |} None, s)
           end
  | CallUpdate id cargo =>
      if decide (id = "") then (Err (Some ErrEmptyID), s)
      else if decide (cargo < 0) then (Err (Some ErrInvalidCargo), s)
      else match s !! id with
           | None => (Err (Some ErrTruckNotFound), s)
           | Some _ => (Err None, <[id := cargo]> s)
           end
  | CallRemove id =>
      if decide (id = "") then (Err (Some ErrEmptyID), s)
      else match s !! id with
           | None => (Err (Some ErrTruckNotFound), s)
           | Some _ => (Err None, delete id s)
           end
  end.

Definition call_id (c : call) : string :=
  match c with
  | CallAdd id _ | CallGet id | CallUpdate id _ | CallRemove id => id
  end.

(** Two calls, one after the other. *)
Definition two_calls (a b : call) : M (reply * reply) :=
  ra ← run_call a; rb ← run_call b; mret (ra, rb).

(** ** Proofs *)

Ltac unfold_M :=
  unfold defer, map_lookup, map_assign, map_delete, modify, new_Truck, load,
    store_Cargo, Lock, Unlock, RLock, RUnlock,
    mbind, M_bind, mret, M_ret, set_trucks, set_mu, set_objs in *; simpl in *.

Ltac idle_memory m H :=
  destruct m as [?t [?w ?r] ?o]; unfold idle, RWMutex_zero in H; simpl in H;
  injection H as -> ->.

Lemma AddTruck_idle id cargo m :
  idle m →
  AddTruck id cargo m =
    if decide (id = "") then Return (Some ErrEmptyID) m
    else if decide (cargo < 0) then Return (Some ErrInvalidCargo) m
    else match trucks m !! id with
         | Some _ => Return (Some ErrTruckExist) m
         | None =>
             Return None {| trucks := <[id := length (objs m)]> (trucks m);
                            mu := mu m;
                            objs := objs m ++ [{| ID := id; Cargo := cargo |}] |}
         end.
Proof.
  intros H. idle_memory m H. unfold AddTruck. unfold_M.
  repeat case_decide; cbn; try reflexivity.
  destruct (t !! id); reflexivity.
Qed.

Lemma GetTruck_idle id m :
  idle m →
  GetTruck id m =
    if decide (id = "") then Return (Truck_zero, Some ErrEmptyID) m
    else match trucks m !! id with
         | None => Return (Truck_zero, Some ErrTruckNotFound) m
         | Some p => match objs m !! p with
                     | Some t => Return (t, None) m
                     | None => Panic
                     end
         end.
Proof.
  intros H. idle_memory m H. unfold GetTruck. unfold_M.
  case_decide; cbn; try reflexivity.
  destruct (t !! id) as [p|]; cbn; try reflexivity.
  destruct (o !! p); reflexivity.
Qed.

Lemma UpdateTruckCargo_idle id cargo m :
  idle m →
  UpdateTruckCargo id cargo m =
    if decide (id = "") then Return (Some ErrEmptyID) m
    else if decide (cargo < 0) then Return (Some ErrInvalidCargo) m
    else match trucks m !! id with
         | None => Return (Some ErrTruckNotFound) m
         | Some p =>
             match objs m !! p with
             | Some t =>
                 Return None {| trucks := trucks m; mu := mu m;
                                objs := <[p := {| ID := ID t; Cargo := cargo |}]> (objs m) |}
             | None => Panic
             end
         end.
Proof.
  intros H. idle_memory m H. unfold UpdateTruckCargo. unfold_M.
  repeat case_decide; cbn; try reflexivity.
  destruct (t !! id) as [p|]; cbn; try reflexivity.
  destruct (o !! p); reflexivity.
Qed.

Lemma RemoveTruck_idle id m :
  idle m →
  RemoveTruck id m =
    if decide (id = "") then Return (Some ErrEmptyID) m
    else match trucks m !! id with
         | None => Return (Some ErrTruckNotFound) m
         | Some _ =>
             Return None {| trucks := delete id (trucks m); mu := mu m; objs := objs m |}
         end.
Proof.
  intros H. idle_memory m H. unfold RemoveTruck. unfold_M.
  case_decide; cbn; try reflexivity.
  destruct (t !! id); reflexivity.
Qed.

(** A method that takes the mutex returns only if the mutex was free. *)
Lemma Lock_Return m u m' : Lock m = Return u m' → idle m.
Proof.
  destruct m as [t [w r] o]. unfold Lock, idle, RWMutex_zero. simpl.
  destruct w; [discriminate |]. destruct r; [reflexivity | discriminate].
Qed.

Lemma AddTruck_Return_idle id cargo m r m' :
  AddTruck id cargo m = Return r m' → idle m.
Proof.
  unfold AddTruck. unfold mbind at 1. unfold M_bind at 1.
  destruct (Lock m) as [u m1 | |] eqn:E; try discriminate.
  intros _. eapply Lock_Return, E.
Qed.

(** *** The representation invariant *)

Lemma wf_New : wf NewTruckManager.
Proof. split; [reflexivity |]. intros id p H. simpl in H. by rewrite lookup_empty in H. Qed.

Lemma wf_idle m : wf m → idle m.
Proof. by intros [H _]. Qed.

Lemma wf_lookup m id p :
  wf m → trucks m !! id = Some p →
  id ≠ "" ∧ ∃ t, objs m !! p = Some t ∧ ID t = id ∧ 0 ≤ Cargo t.
Proof. intros [_ H]. apply H. Qed.

Lemma AddTruck_wf id cargo m r m' :
  wf m → AddTruck id cargo m = Return r m' → wf m'.
Proof.
  intros Hwf. rewrite (AddTruck_idle _ _ _ (wf_idle _ Hwf)).
  repeat case_decide; try (by intros [= _ <-]).
  destruct (trucks m !! id) as [q|] eqn:E; try (by intros [= _ <-]).
  intros [= _ <-]. destruct Hwf as [Hi Hwf]. split; [exact Hi |]. simpl.
  intros id' p'. rewrite lookup_insert. case_decide as Hid.
  - intros [= <-]. subst id'. split; [done |].
    exists {| ID := id; Cargo := cargo |}. rewrite list_lookup_middle by done.
    simpl. split; [reflexivity | split; [reflexivity | lia]].
  - intros Hl. destruct (Hwf _ _ Hl) as (Hne & t & Ht & Hidt & Hc).
    split; [done |]. exists t. split; [| done]. by apply lookup_app_l_Some.
Qed.

Lemma GetTruck_unchanged id m r m' : GetTruck id m = Return r m' → m' = m.
Proof.
  destruct m as [t [w n] o]. unfold GetTruck. unfold_M.
  case_decide; [by intros [= _ <-] |].
  destruct w; [discriminate |]. cbn.
  destruct (t !! id) as [p|]; cbn; [| by intros [= _ <-]].
  destruct (o !! p); cbn; [by intros [= _ <-] | discriminate].
Qed.

Lemma UpdateTruckCargo_wf id cargo m r m' :
  wf m → UpdateTruckCargo id cargo m = Return r m' → wf m'.
Proof.
  intros Hwf. rewrite (UpdateTruckCargo_idle _ _ _ (wf_idle _ Hwf)).
  repeat case_decide; try (by intros [= _ <-]).
  destruct (trucks m !! id) as [q|] eqn:E; try (by intros [= _ <-]).
  destruct (objs m !! q) as [tq|] eqn:Eq; [| discriminate].
  intros [= _ <-]. destruct Hwf as [Hi Hwf]. split; [exact Hi |]. simpl.
  intros id' p' Hl. destruct (Hwf _ _ Hl) as (Hne & t & Ht & Hidt & Hc).
  split; [done |]. destruct (decide (q = p')) as [-> | Hqp].
  - exists {| ID := ID tq; Cargo := cargo |}.
    rewrite list_lookup_insert_eq by (by eapply lookup_lt_Some).
    simpl. split; [reflexivity | split; [| lia]].
    rewrite Ht in Eq. injection Eq as ->. exact Hidt.
  - exists t. by rewrite list_lookup_insert_ne.
Qed.

Lemma RemoveTruck_wf id m r m' :
  wf m → RemoveTruck id m = Return r m' → wf m'.
Proof.
  intros Hwf. rewrite (RemoveTruck_idle _ _ (wf_idle _ Hwf)).
  case_decide; try (by intros [= _ <-]).
  destruct (trucks m !! id) as [q|] eqn:E; try (by intros [= _ <-]).
  intros [= _ <-]. destruct Hwf as [Hi Hwf]. split; [exact Hi |]. simpl.
  intros id' p'. rewrite lookup_delete. case_decide; [discriminate |]. apply Hwf.
Qed.

Lemma reachable_wf m : reachable m → wf m.
Proof.
  induction 1 as [| m id cargo r m' _ IH H | m id r m' _ IH H
                  | m id cargo r m' _ IH H | m id r m' _ IH H].
  - apply wf_New.
  - by eapply AddTruck_wf.
  - by rewrite (GetTruck_unchanged _ _ _ _ H).
  - by eapply UpdateTruckCargo_wf.
  - by eapply RemoveTruck_wf.
Qed.

Lemma reachable_idle m : reachable m → idle m.
Proof. intros H. apply wf_idle, reachable_wf, H. Qed.

(** A registry of the program holds the record of [id] exactly when
    [GetTruck] returns it. *)
Lemma GetTruck_present m id p t :
  idle m → id ≠ "" → trucks m !! id = Some p → objs m !! p = Some t →
  GetTruck id m = Return (t, None) m.
Proof.
  intros Hi Hne Hl Ho. rewrite (GetTruck_idle _ _ Hi).
  rewrite decide_False by done. by rewrite Hl, Ho.
Qed.

(** The registries [main] goes through. *)
Lemma reachable_main_m1 : reachable main_m1.
Proof.
  apply (reach_Add NewTruckManager "truck1" 1000 None); [apply reach_New | reflexivity].
Defined.

Lemma reachable_main_m2 : reachable main_m2.
Proof.
  apply (reach_Add main_m1 "truck2" 2000 None); [apply reachable_main_m1 | reflexivity].
Defined.

(** What [main] prints, call by call. *)
Example main_scenario :
  result (AddTruck "truck1" 1000) NewTruckManager = Some None ∧
  result (AddTruck "truck2" 2000) main_m1 = Some None ∧
  result (AddTruck "truck1" 1500) main_m2 = Some (Some ErrTruckExist) ∧
  result (GetTruck "truck1") main_m3 = Some ({| ID := "truck1"; Cargo := 1000 |}, None) ∧
  result (UpdateTruckCargo "truck1" 1500) main_m3 = Some None ∧
  result (GetTruck "truck1") main_m4 = Some ({| ID := "truck1"; Cargo := 1500 |}, None) ∧
  result (RemoveTruck "truck1") main_m4 = Some None ∧
  result (GetTruck "truck1") main_m5 = Some (Truck_zero, Some ErrTruckNotFound).
Proof. repeat split; reflexivity. Qed.

(** ** Adding *)

(** What a successful [AddTruck] leaves: one more key, pointing to a new
    object that holds the arguments. *)
Lemma AddTruck_fresh m id cargo :
  idle m → id ≠ "" → 0 ≤ cargo → trucks m !! id = None →
  ∃ m', AddTruck id cargo m = Return None m' ∧ idle m' ∧
        trucks m' = <[id := length (objs m)]> (trucks m) ∧
        objs m' = objs m ++ [{| ID := id; Cargo := cargo |}].
Proof.
  intros Hi Hne Hc Hl. rewrite (AddTruck_idle _ _ _ Hi).
  rewrite decide_False by done. rewrite decide_False by lia. rewrite Hl.
  eexists. split; [reflexivity |]. by repeat split.
Qed.

Lemma AddTruck_new_record m id cargo :
  idle m → id ≠ "" → 0 ≤ cargo → trucks m !! id = None →
  ∃ m', AddTruck id cargo m = Return None m' ∧
        GetTruck id m' = Return ({| ID := id; Cargo := cargo |}, None) m' ∧
        registry_size m' = S (registry_size m).
Proof.
  intros Hi Hne Hc Hl.
  destruct (AddTruck_fresh m id cargo Hi Hne Hc Hl) as (m' & Hadd & Hi' & Ht & Ho).
  exists m'. split; [exact Hadd |]. split.
  - apply (GetTruck_present m' id (length (objs m))); [done | done | |].
    + rewrite Ht. apply lookup_insert_eq.
    + rewrite Ho. by apply list_lookup_middle.
  - unfold registry_size. rewrite Ht. by apply map_size_insert_None.
Qed.

(** C1. For a non-empty id that the registry does not hold and a cargo
    that is not negative, [AddTruck id cargo] returns [nil], and
    [GetTruck id] on the registry it leaves returns the record
    [{id, cargo}] and [nil]. *)
Theorem AddTruck_then_GetTruck m id cargo :
  reachable m → id ≠ "" → trucks m !! id = None → 0 ≤ cargo →
  ∃ m', AddTruck id cargo m = Return None m' ∧
        GetTruck id m' = Return ({| ID := id; Cargo := cargo |}, None) m'.
Proof.
  intros Hr Hne Hl Hc.
  destruct (AddTruck_new_record m id cargo (reachable_idle _ Hr) Hne Hc Hl)
    as (m' & Hadd & Hget & _).
  by exists m'.
Qed.

Lemma AddTruck_then_GetTruck_witness :
  ∃ m', AddTruck "truck3" 3000 main_m2 = Return None m' ∧
        GetTruck "truck3" m' = Return ({| ID := "truck3"; Cargo := 3000 |}, None) m'.
Proof.
  apply (AddTruck_then_GetTruck main_m2 "truck3" 3000).
  - exact reachable_main_m2.
  - discriminate.
  - reflexivity.
  - lia.
Defined.

(** C3. [AddTruck] on a registry of the program always returns, and what
    it returns is decided in this order: [ErrEmptyID] for the empty id;
    else [ErrInvalidCargo] for a negative cargo; else [ErrTruckExist] for
    an id the registry holds; else [nil], and then the registry holds the
    new record and is larger by exactly one.  So the result is [nil] or
    exactly one of these three errors. *)
Theorem AddTruck_cases m id cargo :
  reachable m →
  ∃ r m', AddTruck id cargo m = Return r m' ∧
    ( (id = "" ∧ r = Some ErrEmptyID)
    ∨ (id ≠ "" ∧ cargo < 0 ∧ r = Some ErrInvalidCargo)
    ∨ (id ≠ "" ∧ 0 ≤ cargo ∧ is_Some (trucks m !! id) ∧ r = Some ErrTruckExist)
    ∨ (id ≠ "" ∧ 0 ≤ cargo ∧ trucks m !! id = None ∧ r = None ∧
       GetTruck id m' = Return ({| ID := id; Cargo := cargo |}, None) m' ∧
       registry_size m' = S (registry_size m)) ).
Proof.
  intros Hr. pose proof (reachable_idle _ Hr) as Hi.
  destruct (decide (id = "")) as [He | Hne].
  { exists (Some ErrEmptyID), m. rewrite (AddTruck_idle _ _ _ Hi).
    rewrite decide_True by done. split; [reflexivity |]. by left. }
  destruct (decide (cargo < 0)) as [Hneg | Hpos].
  { exists (Some ErrInvalidCargo), m. rewrite (AddTruck_idle _ _ _ Hi).
    rewrite decide_False by done. rewrite decide_True by done.
    split; [reflexivity |]. right; left. done. }
  destruct (trucks m !! id) as [p|] eqn:Hl.
  { exists (Some ErrTruckExist), m. rewrite (AddTruck_idle _ _ _ Hi).
    rewrite decide_False by done. rewrite decide_False by done. rewrite Hl.
    split; [reflexivity |]. right; right; left.
    split; [done |]. split; [lia |]. split; [by eexists | done]. }
  destruct (AddTruck_new_record m id cargo Hi Hne ltac:(lia) Hl) as (m' & Hadd & Hget & Hsz).
  exists None, m'. split; [exact Hadd |]. right; right; right.
  split; [done |]. split; [lia |]. by repeat split.
Qed.

Lemma AddTruck_cases_witness :
  ∃ r m', AddTruck "truck1" 1500 main_m2 = Return r m' ∧
    ( ("truck1" = "" ∧ r = Some ErrEmptyID)
    ∨ ("truck1" ≠ "" ∧ 1500 < 0 ∧ r = Some ErrInvalidCargo)
    ∨ ("truck1" ≠ "" ∧ 0 ≤ 1500 ∧ is_Some (trucks main_m2 !! "truck1") ∧
       r = Some ErrTruckExist)
    ∨ ("truck1" ≠ "" ∧ 0 ≤ 1500 ∧ trucks main_m2 !! "truck1" = None ∧ r = None ∧
       GetTruck "truck1" m' = Return ({| ID := "truck1"; Cargo := 1500 |}, None) m' ∧
       registry_size m' = S (registry_size main_m2)) ).
Proof. apply (AddTruck_cases main_m2 "truck1" 1500). exact reachable_main_m2. Defined.

(** C4. Whenever [AddTruck] returns an error the memory is the one it
    started on; and on an id the registry already holds it returns an
    error ([ErrTruckExist] when the cargo is not negative) and [GetTruck]
    still returns the record stored before. *)
Theorem AddTruck_error_unchanged :
  (∀ m id cargo e m', AddTruck id cargo m = Return (Some e) m' → m' = m) ∧
  (∀ m id cargo t,
     reachable m → GetTruck id m = Return (t, None) m →
     ∃ e m', AddTruck id cargo m = Return (Some e) m' ∧
             (0 ≤ cargo → e = ErrTruckExist) ∧
             m' = m ∧ GetTruck id m' = Return (t, None) m').
Proof.
  split.
  - intros m id cargo e m' H. pose proof (AddTruck_Return_idle _ _ _ _ _ H) as Hi.
    rewrite (AddTruck_idle _ _ _ Hi) in H.
    repeat case_decide; try (by injection H as _ <-).
    destruct (trucks m !! id); [by injection H as _ <- | discriminate].
  - intros m id cargo t Hr Hget. pose proof (reachable_idle _ Hr) as Hi.
    rewrite (GetTruck_idle _ _ Hi) in Hget. case_decide as Hne; [discriminate |].
    destruct (trucks m !! id) as [p|] eqn:Hl; [| discriminate].
    destruct (objs m !! p) as [t'|] eqn:Ho; [| discriminate].
    injection Hget as <-.
    assert (Hget : GetTruck id m = Return (t', None) m)
      by (by eapply GetTruck_present).
    rewrite (AddTruck_idle _ _ _ Hi). rewrite decide_False by done.
    case_decide as Hc.
    + exists ErrInvalidCargo, m. split; [reflexivity |]. split; [lia | done].
    + rewrite Hl. exists ErrTruckExist, m. done.
Qed.

Lemma AddTruck_error_unchanged_witness :
  after (AddTruck "truck1" 1500) main_m2 = main_m2 ∧
  ∃ e m', AddTruck "truck1" 1500 main_m2 = Return (Some e) m' ∧
          (0 ≤ 1500 → e = ErrTruckExist) ∧
          m' = main_m2 ∧
          GetTruck "truck1" m' = Return ({| ID := "truck1"; Cargo := 1000 |}, None) m'.
Proof.
  split.
  - apply (proj1 AddTruck_error_unchanged main_m2 "truck1" 1500 ErrTruckExist).
    reflexivity.
  - apply (proj2 AddTruck_error_unchanged main_m2 "truck1" 1500).
    + exact reachable_main_m2.
    + reflexivity.
Defined.

(** ** Updating, removing, looking up *)

(** C5. On a registry that holds [id], [UpdateTruckCargo id newCargo]
    with a cargo that is not negative returns [nil]; afterwards
    [GetTruck id] returns [{id, newCargo}], the map has the same keys and
    pointers, and every other key has the object it had and [GetTruck]
    returns for it what it returned before. *)
Theorem UpdateTruckCargo_frame m id newCargo :
  reachable m → is_Some (trucks m !! id) → 0 ≤ newCargo →
  ∃ m', UpdateTruckCargo id newCargo m = Return None m' ∧
        GetTruck id m' = Return ({| ID := id; Cargo := newCargo |}, None) m' ∧
        trucks m' = trucks m ∧
        ∀ id', id' ≠ id →
          (∀ p, trucks m !! id' = Some p → objs m' !! p = objs m !! p) ∧
          (∀ r, GetTruck id' m = Return r m → GetTruck id' m' = Return r m').
Proof.
  intros Hr [p Hl] Hc. pose proof (reachable_wf _ Hr) as Hwf.
  pose proof (wf_idle _ Hwf) as Hi.
  destruct (wf_lookup _ _ _ Hwf Hl) as (Hne & t & Ho & Hid & _).
  rewrite (UpdateTruckCargo_idle _ _ _ Hi).
  rewrite decide_False by done. rewrite decide_False by lia. rewrite Hl, Ho.
  eexists. split; [reflexivity |].
  assert (Hother : ∀ id' p', id' ≠ id → trucks m !! id' = Some p' → p' ≠ p).
  { intros id' p' Hd Hl' ->. destruct (wf_lookup _ _ _ Hwf Hl') as (_ & t' & Ho' & Hid' & _).
    rewrite Ho in Ho'. injection Ho' as <-. congruence. }
  split; [| split; [reflexivity |]].
  - apply (GetTruck_present _ id p); [exact Hi | exact Hne | exact Hl |]. simpl.
    rewrite list_lookup_insert_eq by (by eapply lookup_lt_Some). by rewrite Hid.
  - intros id' Hd. split.
    + intros p' Hl'. simpl. apply list_lookup_insert_ne.
      intros Heq. apply (Hother id' p' Hd Hl'). by symmetry.
    + intros r. rewrite !GetTruck_idle by exact Hi. simpl.
      case_decide; [by intros [= <-] |].
      destruct (trucks m !! id') as [p'|] eqn:Hl'; [| by intros [= <-]].
      rewrite list_lookup_insert_ne
        by (intros Heq; apply (Hother id' p' Hd Hl'); by symmetry).
      destruct (objs m !! p'); [by intros [= <-] | discriminate].
Qed.

Lemma UpdateTruckCargo_frame_witness :
  ∃ m', UpdateTruckCargo "truck1" 1500 main_m2 = Return None m' ∧
        GetTruck "truck1" m' = Return ({| ID := "truck1"; Cargo := 1500 |}, None) m' ∧
        trucks m' = trucks main_m2 ∧
        ∀ id', id' ≠ "truck1" →
          (∀ p, trucks main_m2 !! id' = Some p → objs m' !! p = objs main_m2 !! p) ∧
          (∀ r, GetTruck id' main_m2 = Return r main_m2 → GetTruck id' m' = Return r m').
Proof.
  apply (UpdateTruckCargo_frame main_m2 "truck1" 1500).
  - exact reachable_main_m2.
  - exists 0%nat. reflexivity.
  - lia.
Defined.

(** C6. On a registry that holds the non-empty [id], [RemoveTruck id]
    returns [nil] and [GetTruck id] then fails with [ErrTruckNotFound]. *)
Theorem RemoveTruck_then_GetTruck m id :
  reachable m → id ≠ "" → is_Some (trucks m !! id) →
  ∃ m', RemoveTruck id m = Return None m' ∧
        GetTruck id m' = Return (Truck_zero, Some ErrTruckNotFound) m'.
Proof.
  intros Hr Hne [p Hl]. pose proof (reachable_idle _ Hr) as Hi.
  rewrite (RemoveTruck_idle _ _ Hi). rewrite decide_False by done. rewrite Hl.
  eexists. split; [reflexivity |].
  rewrite GetTruck_idle by exact Hi. rewrite decide_False by done. simpl.
  by rewrite lookup_delete_eq.
Qed.

Lemma RemoveTruck_then_GetTruck_witness :
  ∃ m', RemoveTruck "truck1" main_m2 = Return None m' ∧
        GetTruck "truck1" m' = Return (Truck_zero, Some ErrTruckNotFound) m'.
Proof.
  apply (RemoveTruck_then_GetTruck main_m2 "truck1").
  - exact reachable_main_m2.
  - discriminate.
  - exists 0%nat. reflexivity.
Defined.

(** C7. For a non-empty id that the registry does not hold, [GetTruck],
    [UpdateTruckCargo] with a cargo that is not negative, and
    [RemoveTruck] each return [ErrTruckNotFound]. *)
Theorem absent_NotFound m id cargo :
  reachable m → id ≠ "" → trucks m !! id = None → 0 ≤ cargo →
  GetTruck id m = Return (Truck_zero, Some ErrTruckNotFound) m ∧
  UpdateTruckCargo id cargo m = Return (Some ErrTruckNotFound) m ∧
  RemoveTruck id m = Return (Some ErrTruckNotFound) m.
Proof.
  intros Hr Hne Hl Hc. pose proof (reachable_idle _ Hr) as Hi.
  rewrite (GetTruck_idle _ _ Hi), (UpdateTruckCargo_idle _ _ _ Hi), (RemoveTruck_idle _ _ Hi).
  rewrite !decide_False by (done || lia). by rewrite Hl.
Qed.

Lemma absent_NotFound_witness :
  GetTruck "truck9" main_m2 = Return (Truck_zero, Some ErrTruckNotFound) main_m2 ∧
  UpdateTruckCargo "truck9" 7 main_m2 = Return (Some ErrTruckNotFound) main_m2 ∧
  RemoveTruck "truck9" main_m2 = Return (Some ErrTruckNotFound) main_m2.
Proof.
  apply (absent_NotFound main_m2 "truck9" 7).
  - exact reachable_main_m2.
  - discriminate.
  - reflexivity.
  - lia.
Defined.

(** C10. With an empty id and a negative cargo, [AddTruck] and
    [UpdateTruckCargo] both return [ErrEmptyID], not [ErrInvalidCargo]:
    the id is tested first. *)
Theorem EmptyID_before_InvalidCargo m cargo :
  reachable m → cargo < 0 →
  AddTruck "" cargo m = Return (Some ErrEmptyID) m ∧
  UpdateTruckCargo "" cargo m = Return (Some ErrEmptyID) m.
Proof.
  intros Hr _. pose proof (reachable_idle _ Hr) as Hi.
  by rewrite (AddTruck_idle _ _ _ Hi), (UpdateTruckCargo_idle _ _ _ Hi).
Qed.

Lemma EmptyID_before_InvalidCargo_witness :
  AddTruck "" (-5) main_m2 = Return (Some ErrEmptyID) main_m2 ∧
  UpdateTruckCargo "" (-5) main_m2 = Return (Some ErrEmptyID) main_m2.
Proof.
  apply (EmptyID_before_InvalidCargo main_m2 (-5)).
  - exact reachable_main_m2.
  - lia.
Defined.

Lemma insert_last {A} (l : list A) (x y : A) :
  <[length l := y]> (l ++ [x]) = l ++ [y].
Proof. rewrite insert_app_r_alt by lia. by rewrite Nat.sub_diag. Qed.

(** What [mutate_copy] does to the memory: one more object, the caller's
    variable, and nothing else. *)
Lemma mutate_copy_run t c m :
  mutate_copy t c m =
    Return {| ID := ID t; Cargo := c |}
           {| trucks := trucks m; mu := mu m;
              objs := objs m ++ [{| ID := ID t; Cargo := c |}] |}.
Proof.
  destruct m as [tr k o]. unfold mutate_copy. unfold_M.
  rewrite list_lookup_middle by done. cbn.
  rewrite insert_last. rewrite list_lookup_middle by done. reflexivity.
Qed.

(** C8. [GetTruck] returns on every registry of the program, and whatever
    it returns, a record or an error, it leaves the memory it started on.
    What it returns is a value: a caller that assigns to the [Cargo] field
    of the returned record writes to an object of its own, the map and
    every object the registry points to stay as they were, and [GetTruck]
    returns for every id what it returned before. *)
Theorem GetTruck_pure :
  (∀ m id r m', GetTruck id m = Return r m' → m' = m) ∧
  (∀ m id, reachable m → ∃ r, GetTruck id m = Return r m) ∧
  (∀ m id t e m' c,
     reachable m → GetTruck id m = Return (t, e) m' →
     ∃ t' m'', mutate_copy t c m' = Return t' m'' ∧
       ID t' = ID t ∧ Cargo t' = c ∧
       trucks m'' = trucks m ∧ mu m'' = mu m ∧
       (∀ id' p, trucks m !! id' = Some p → objs m'' !! p = objs m !! p) ∧
       (∀ id' r, GetTruck id' m = Return r m → GetTruck id' m'' = Return r m'')).
Proof.
  split; [| split].
  - intros m id r m'. apply GetTruck_unchanged.
  - intros m id Hr. pose proof (reachable_wf _ Hr) as Hwf.
    rewrite (GetTruck_idle _ _ (wf_idle _ Hwf)).
    case_decide; [by eexists |].
    destruct (trucks m !! id) as [p|] eqn:Hl; [| by eexists].
    destruct (wf_lookup _ _ _ Hwf Hl) as (_ & t & -> & _). by eexists.
  - intros m id t e m' c Hr Hget.
    rewrite (GetTruck_unchanged _ _ _ _ Hget). clear Hget m'.
    pose proof (reachable_wf _ Hr) as Hwf. pose proof (wf_idle _ Hwf) as Hi.
    rewrite mutate_copy_run. eexists _, _. split; [reflexivity |]. simpl.
    split; [reflexivity |]. split; [reflexivity |].
    split; [reflexivity |]. split; [reflexivity |].
    assert (Hobj : ∀ id' p, trucks m !! id' = Some p →
              (objs m ++ [{| ID := ID t; Cargo := c |}]) !! p = objs m !! p).
    { intros id' p Hl. destruct (wf_lookup _ _ _ Hwf Hl) as (_ & t0 & Ho & _).
      rewrite Ho. by apply lookup_app_l_Some. }
    split; [exact Hobj |].
    intros id' r. rewrite !GetTruck_idle by exact Hi. simpl.
    case_decide; [by intros [= <-] |].
    destruct (trucks m !! id') as [p|] eqn:Hl; [| by intros [= <-]].
    rewrite (Hobj _ _ Hl).
    destruct (objs m !! p); [by intros [= <-] | discriminate].
Qed.

Lemma GetTruck_pure_witness :
  after (GetTruck "truck1") main_m2 = main_m2 ∧
  (∃ r, GetTruck "truck1" main_m2 = Return r main_m2) ∧
  ∃ t' m'', mutate_copy {| ID := "truck1"; Cargo := 1000 |} 77 main_m2 = Return t' m'' ∧
    ID t' = "truck1" ∧ Cargo t' = 77 ∧
    trucks m'' = trucks main_m2 ∧ mu m'' = mu main_m2 ∧
    (∀ id' p, trucks main_m2 !! id' = Some p → objs m'' !! p = objs main_m2 !! p) ∧
    (∀ id' r, GetTruck id' main_m2 = Return r main_m2 → GetTruck id' m'' = Return r m'').
Proof.
  destruct GetTruck_pure as (H1 & H2 & H3). split; [| split].
  - apply (H1 main_m2 "truck1" ({| ID := "truck1"; Cargo := 1000 |}, None)). reflexivity.
  - apply (H2 main_m2 "truck1"). exact reachable_main_m2.
  - apply (H3 main_m2 "truck1" {| ID := "truck1"; Cargo := 1000 |} None main_m2 77).
    + exact reachable_main_m2.
    + reflexivity.
Defined.

(** The mutation of the copy is seen by the caller only: the scenario of
    [main], with the caller overwriting its copy of truck1. *)
Example mutate_copy_main :
  ∃ m', mutate_copy {| ID := "truck1"; Cargo := 1000 |} 77 main_m2
          = Return {| ID := "truck1"; Cargo := 77 |} m' ∧
        result (GetTruck "truck1") m' = Some ({| ID := "truck1"; Cargo := 1000 |}, None).
Proof. eexists. split; reflexivity. Qed.

(** ** The invariant of the data model *)

Lemma elem_of_keys m id : id ∈ keys m ↔ is_Some (trucks m !! id).
Proof.
  unfold keys. rewrite list_elem_of_fmap. split.
  - intros ([k p] & -> & H). apply elem_of_map_to_list in H. by exists p.
  - intros [p H]. exists (id, p). split; [done |]. by apply elem_of_map_to_list.
Qed.

(** The invariant, key by key; uniqueness of the keys is what a map gives. *)
Lemma registry_invariant_alt m :
  registry_invariant m ↔
  ∀ id p, trucks m !! id = Some p →
    id ≠ "" ∧ ∃ t, objs m !! p = Some t ∧ 0 ≤ Cargo t.
Proof.
  split.
  - intros (Hk & _ & Hc) id p Hl. split; [| by eapply Hc].
    apply Hk, elem_of_keys. by exists p.
  - intros H. split; [| split].
    + intros id [p Hl]%elem_of_keys. by destruct (H _ _ Hl).
    + apply NoDup_fst_map_to_list.
    + intros id p Hl. by destruct (H _ _ Hl).
Qed.

Section invariant_steps.
Variable m : memory.
Hypothesis Hidle : idle m.
Hypothesis Hinv : registry_invariant m.

Lemma AddTruck_invariant id cargo :
  ∃ r m', AddTruck id cargo m = Return r m' ∧ idle m' ∧ registry_invariant m'.
Proof using Hidle Hinv.
  rewrite (AddTruck_idle _ _ _ Hidle).
  repeat case_decide; try (by eexists _, _).
  destruct (trucks m !! id) as [q|] eqn:E; try (by eexists _, _).
  eexists _, _. split; [reflexivity |]. split; [exact Hidle |].
  apply registry_invariant_alt. simpl. intros id' p'.
  rewrite lookup_insert. case_decide as Hid.
  - intros [= <-]. subst id'. split; [done |].
    exists {| ID := id; Cargo := cargo |}. rewrite list_lookup_middle by done.
    simpl. split; [reflexivity | lia].
  - intros Hl. pose proof (proj1 (registry_invariant_alt _) Hinv) as Hinv'.
    destruct (Hinv' _ _ Hl) as (Hne & t & Ht & Hc).
    split; [done |]. exists t. split; [| done]. by apply lookup_app_l_Some.
Qed.

Lemma GetTruck_invariant id :
  ∃ r m', GetTruck id m = Return r m' ∧ idle m' ∧ registry_invariant m'.
Proof using Hidle Hinv.
  rewrite (GetTruck_idle _ _ Hidle).
  case_decide; [by eexists _, _ |].
  destruct (trucks m !! id) as [p|] eqn:Hl; [| by eexists _, _].
  pose proof (proj1 (registry_invariant_alt _) Hinv) as Hinv'.
  destruct (Hinv' _ _ Hl) as (_ & t & -> & _). eexists _, _.
  split; [reflexivity |]. split; [exact Hidle | exact Hinv].
Qed.

Lemma UpdateTruckCargo_invariant id cargo :
  ∃ r m', UpdateTruckCargo id cargo m = Return r m' ∧ idle m' ∧ registry_invariant m'.
Proof using Hidle Hinv.
  rewrite (UpdateTruckCargo_idle _ _ _ Hidle).
  repeat case_decide; try (by eexists _, _).
  destruct (trucks m !! id) as [q|] eqn:E; try (by eexists _, _).
  pose proof (proj1 (registry_invariant_alt _) Hinv) as Hinv'.
  destruct (Hinv' _ _ E) as (_ & tq & Hq & _). rewrite Hq.
  eexists _, _. split; [reflexivity |]. split; [exact Hidle |].
  apply registry_invariant_alt. simpl. intros id' p' Hl.
  destruct (Hinv' _ _ Hl) as (Hne & t & Ht & Hc).
  split; [done |]. destruct (decide (q = p')) as [-> | Hqp].
  - exists {| ID := ID tq; Cargo := cargo |}.
    rewrite list_lookup_insert_eq by (by eapply lookup_lt_Some).
    simpl. split; [reflexivity | lia].
  - exists t. by rewrite list_lookup_insert_ne.
Qed.

Lemma RemoveTruck_invariant id :
  ∃ r m', RemoveTruck id m = Return r m' ∧ idle m' ∧ registry_invariant m'.
Proof using Hidle Hinv.
  rewrite (RemoveTruck_idle _ _ Hidle).
  case_decide; try (by eexists _, _).
  destruct (trucks m !! id) as [q|] eqn:E; try (by eexists _, _).
  eexists _, _. split; [reflexivity |]. split; [exact Hidle |].
  apply registry_invariant_alt. simpl. intros id' p'.
  rewrite lookup_delete. case_decide; [discriminate |].
  apply (proj1 (registry_invariant_alt _) Hinv).
Qed.
End invariant_steps.

Lemma registry_invariant_New : registry_invariant NewTruckManager.
Proof.
  apply registry_invariant_alt. intros id p H. simpl in H.
  by rewrite lookup_empty in H.
Qed.

(** C2. The invariant (keys non-empty, keys unique, every stored cargo
    not negative) holds of the registry [NewTruckManager] builds; each of
    the four methods, called on a registry that satisfies it, returns and
    leaves a registry that satisfies it, whatever it returns; so every
    registry of the program satisfies it. *)
Theorem registry_invariant_preserved :
  registry_invariant NewTruckManager ∧
  (∀ m, idle m → registry_invariant m →
     (∀ id cargo, ∃ r m',
        AddTruck id cargo m = Return r m' ∧ idle m' ∧ registry_invariant m') ∧
     (∀ id, ∃ r m',
        GetTruck id m = Return r m' ∧ idle m' ∧ registry_invariant m') ∧
     (∀ id cargo, ∃ r m',
        UpdateTruckCargo id cargo m = Return r m' ∧ idle m' ∧ registry_invariant m') ∧
     (∀ id, ∃ r m',
        RemoveTruck id m = Return r m' ∧ idle m' ∧ registry_invariant m')) ∧
  (∀ m, reachable m → registry_invariant m).
Proof.
  split; [apply registry_invariant_New |]. split.
  - intros m Hi Hinv. repeat split.
    + intros. by apply AddTruck_invariant.
    + intros. by apply GetTruck_invariant.
    + intros. by apply UpdateTruckCargo_invariant.
    + intros. by apply RemoveTruck_invariant.
  - intros m Hr. assert (idle m ∧ registry_invariant m) as [_ H]; [| exact H].
    induction Hr as [| m id cargo r m' _ [Hi IH] H | m id r m' _ [Hi IH] H
                     | m id cargo r m' _ [Hi IH] H | m id r m' _ [Hi IH] H].
    + split; [reflexivity | apply registry_invariant_New].
    + destruct (AddTruck_invariant m Hi IH id cargo) as (r' & m2 & H2 & ? & ?).
      rewrite H in H2. by injection H2 as <- <-.
    + destruct (GetTruck_invariant m Hi IH id) as (r' & m2 & H2 & ? & ?).
      rewrite H in H2. by injection H2 as <- <-.
    + destruct (UpdateTruckCargo_invariant m Hi IH id cargo) as (r' & m2 & H2 & ? & ?).
      rewrite H in H2. by injection H2 as <- <-.
    + destruct (RemoveTruck_invariant m Hi IH id) as (r' & m2 & H2 & ? & ?).
      rewrite H in H2. by injection H2 as <- <-.
Qed.

Lemma registry_invariant_preserved_witness :
  (∀ id cargo, ∃ r m',
     AddTruck id cargo NewTruckManager = Return r m' ∧ idle m' ∧ registry_invariant m') ∧
  (∀ id, ∃ r m',
     GetTruck id NewTruckManager = Return r m' ∧ idle m' ∧ registry_invariant m') ∧
  (∀ id cargo, ∃ r m',
     UpdateTruckCargo id cargo NewTruckManager = Return r m' ∧ idle m' ∧
     registry_invariant m') ∧
  (∀ id, ∃ r m',
     RemoveTruck id NewTruckManager = Return r m' ∧ idle m' ∧ registry_invariant m') ∧
  registry_invariant main_m2.
Proof.
  destruct registry_invariant_preserved as (H0 & Hstep & Hreach).
  destruct (Hstep NewTruckManager) as (Ha & Hg & Hu & Hr); [reflexivity | exact H0 |].
  repeat split; try assumption.
  - apply (Hreach main_m2 reachable_main_m2).
  - apply (Hreach main_m2 reachable_main_m2).
  - apply (Hreach main_m2 reachable_main_m2).
Defined.

(** ** Goroutines *)

(** A goroutine running alone does what the method does. *)
Lemma run_goroutine_AddTruck id cargo m :
  idle m →
  ∃ r m', AddTruck id cargo m = Return r m' ∧
          run_goroutine 6 {| g_id := id; g_cargo := cargo; g_pc := AtLock |} m
            = ({| g_id := id; g_cargo := cargo; g_pc := Returned r |}, m').
Proof.
  intros H. rewrite (AddTruck_idle _ _ _ H). idle_memory m H.
  unfold run_goroutine, goroutine_step, goto. unfold_M. cbn.
  destruct (decide (id = "")); [eexists _, _; split; reflexivity |]. cbn.
  destruct (decide (cargo < 0)); [eexists _, _; split; reflexivity |]. cbn.
  destruct (t !! id) eqn:E; cbn; eexists _, _; split; reflexivity.
Qed.

Lemma goroutine_step_goto g m g' m' :
  goroutine_step g m = Some (g', m') → g' = goto g (g_pc g').
Proof.
  unfold goroutine_step. intros H.
  repeat (case_match; simplify_eq); reflexivity.
Qed.

Lemma goroutine_step_call g m g' m' :
  goroutine_step g m = Some (g', m') → call_of g' = call_of g.
Proof. intros H. by rewrite (goroutine_step_goto _ _ _ _ H). Qed.

Lemma goroutine_step_remaining g m g' m' :
  goroutine_step g m = Some (g', m') → (remaining g' < remaining g)%nat.
Proof.
  unfold goroutine_step, remaining. intros H.
  repeat (case_match; simplify_eq); simpl; lia.
Qed.

Lemma step_remaining c c' :
  step c c' → (total_remaining (pool c') < total_remaining (pool c))%nat.
Proof.
  intros [gs1 g gs2 m g' m' H]. simpl. unfold total_remaining.
  rewrite !sum_list_with_app. simpl.
  pose proof (goroutine_step_remaining _ _ _ _ H). lia.
Qed.

Lemma nsteps_remaining n c c' :
  nsteps step n c c' →
  (n + total_remaining (pool c') ≤ total_remaining (pool c))%nat.
Proof.
  induction 1 as [| n c1 c2 c3 H _ IH]; [lia |].
  pose proof (step_remaining _ _ H). lia.
Qed.

Lemma total_remaining_spawn calls m :
  total_remaining (pool (spawn calls m)) = (6 * length calls)%nat.
Proof.
  unfold total_remaining. simpl. induction calls as [| c calls IH]; [reflexivity |].
  rewrite fmap_cons. simpl. rewrite IH. lia.
Qed.

Lemma step_calls c c' : step c c' → call_of <$> pool c' = call_of <$> pool c.
Proof.
  intros [gs1 g gs2 m g' m' H]. simpl. rewrite !fmap_app, !fmap_cons.
  by rewrite (goroutine_step_call _ _ _ _ H).
Qed.

Lemma nsteps_calls n c c' :
  nsteps step n c c' → call_of <$> pool c' = call_of <$> pool c.
Proof.
  induction 1 as [| n c1 c2 c3 H _ IH]; [reflexivity |].
  by rewrite IH, (step_calls _ _ H).
Qed.

Lemma calls_spawn calls m : call_of <$> pool (spawn calls m) = calls.
Proof.
  simpl. rewrite <- list_fmap_compose. rewrite <- (list_fmap_id calls) at 2.
  apply list_fmap_ext. by intros ? [id cargo].
Qed.

(** The explicit scheduler only makes moves of [step]. *)
Lemma run_schedule_nsteps sched c c' :
  run_schedule sched c = Some c' → nsteps step (length sched) c c'.
Proof.
  revert c. induction sched as [| i sched IH]; intros c; simpl.
  - intros [= <-]. constructor.
  - destruct (pool c !! i) as [g|] eqn:Hg; [| discriminate].
    destruct (goroutine_step g (shared c)) as [[g' m']|] eqn:Hs; [| discriminate].
    intros H. eapply nsteps_l; [| apply IH, H].
    destruct c as [gs m]. simpl in *.
    rewrite <- (take_drop_middle gs i g Hg) at 1.
    rewrite insert_take_drop by (by eapply lookup_lt_Some).
    by constructor.
Qed.

(** *** The invariant of the goroutines *)

Lemma critical_count_pos gs :
  (0 < critical_count gs)%nat → ∃ g, g ∈ gs ∧ in_critical g = true.
Proof.
  unfold critical_count. induction gs as [| g gs IH]; simpl; [lia |].
  destruct (in_critical g) eqn:E.
  - intros _. exists g. split; [left | done].
  - simpl. intros H. destruct (IH H) as (g0 & Hin & Hc).
    exists g0. split; [by right | done].
Qed.

Lemma critical_count_zero gs g :
  critical_count gs = 0%nat → g ∈ gs → in_critical g = false.
Proof.
  unfold critical_count. intros H Hin.
  pose proof (sum_list_with_in g (λ g, Nat.b2n (in_critical g)) gs Hin) as Hle.
  simpl in Hle. destruct (in_critical g); [simpl in Hle; lia | reflexivity].
Qed.

Lemma NoDup_fmap_middle {A B} (f : A → B) (l1 l2 : list A) (x y : A) :
  NoDup (f <$> (l1 ++ x :: l2)) → y ∈ l1 ++ l2 → f y ≠ f x.
Proof.
  rewrite fmap_app, fmap_cons. intros (_ & H1 & [H2 _]%NoDup_cons)%NoDup_app.
  intros [Hy | Hy]%elem_of_app Heq.
  - apply (H1 (f y)); [by apply list_elem_of_fmap_2 | rewrite Heq; left].
  - apply H2. rewrite <- Heq. by apply list_elem_of_fmap_2.
Qed.

(** The invariant of a goroutine reads the map and the objects only. *)
Lemma goroutine_inv_same m m' g :
  trucks m' = trucks m → objs m' = objs m →
  goroutine_inv m g → goroutine_inv m' g.
Proof. unfold goroutine_inv. by intros -> ->. Qed.

(** It survives the insertion of another id. *)
Lemma goroutine_inv_insert m k g id t :
  g_id g ≠ id → goroutine_inv m g →
  goroutine_inv {| trucks := <[id := length (objs m)]> (trucks m); mu := k;
                   objs := objs m ++ [t] |} g.
Proof.
  unfold goroutine_inv. intros Hne (H1 & H2 & H3). split; [done |]. split; [done |].
  simpl. rewrite lookup_insert_ne by done.
  destruct (g_pc g); try done;
    destruct H3 as (-> & p & Hl & Ho); (split; [done |]); exists p;
    (split; [done |]); by apply lookup_app_l_Some.
Qed.

(** One statement of one goroutine. *)
Lemma goroutine_step_inv g m g' m' :
  goroutine_inv m g →
  readers (mu m) = 0%nat →
  (in_critical g = true → writer (mu m) = true) →
  goroutine_step g m = Some (g', m') →
  goroutine_inv m' g' ∧
  readers (mu m') = 0%nat ∧
  (Nat.b2n (in_critical g') + Nat.b2n (writer (mu m))
   = Nat.b2n (in_critical g) + Nat.b2n (writer (mu m')))%nat ∧
  (∀ g2, g_id g2 ≠ g_id g → goroutine_inv m g2 → goroutine_inv m' g2).
Proof.
  destruct g as [id cargo k]. destruct m as [t [w r] o].
  unfold goroutine_step, goto. unfold_M.
  intros (Hne & Hc & Hk) -> Hcrit H. unfold in_critical in *. simpl in *.
  destruct k; simpl in *.
  - (* tm.Lock() *)
    destruct w; [discriminate |]. injection H as <- <-.
    split; [by repeat split | split; [done | split; [done |]]].
    intros g2 _. by apply goroutine_inv_same.
  - (* if id == "" *)
    rewrite decide_False in H by done. injection H as <- <-.
    split; [by repeat split | split; [done | split; [done |]]]. by intros g2 _.
  - (* if cargo < 0 *)
    rewrite decide_False in H by lia. injection H as <- <-.
    split; [by repeat split | split; [done | split; [done |]]]. by intros g2 _.
  - (* if _, exist := tm.trucks[id]; exist *)
    rewrite Hk in H. injection H as <- <-.
    split; [by repeat split | split; [done | split; [done |]]]. by intros g2 _.
  - (* tm.trucks[id] = &Truck{...} *)
    injection H as <- <-. split; [| split; [done | split; [done |]]].
    + split; [done |]. split; [done |]. simpl. split; [done |].
      exists (length o). split; [apply lookup_insert_eq | by apply list_lookup_middle].
    + intros g2 Hg2 Hinv.
      by apply (goroutine_inv_insert {| trucks := t; mu := {| writer := w; readers := 0 |};
                                        objs := o |}).
  - (* the deferred tm.Unlock() *)
    rewrite Hcrit in H by done. simpl in H. injection H as <- <-.
    rewrite Hcrit by done.
    split; [by split; [| split; [| exact Hk]] | split; [done | split; [done |]]].
    intros g2 _. by apply goroutine_inv_same.
  - discriminate.
  - discriminate.
Qed.

(** The invariant holds when the goroutines start and after every move. *)
Lemma config_inv_spawn calls m :
  idle m →
  NoDup calls.*1 →
  Forall valid_call calls →
  Forall (λ c, trucks m !! c.1 = None) calls →
  config_inv (spawn calls m).
Proof.
  intros Hi Hnd Hv Ha. unfold config_inv. simpl. repeat split.
  - apply Forall_fmap, Forall_forall. intros [id cargo] Hin.
    rewrite Forall_forall in Hv, Ha.
    destruct (Hv _ Hin) as [H1 H2]. specialize (Ha _ Hin). by repeat split.
  - rewrite <- list_fmap_compose. exact Hnd.
  - by rewrite Hi.
  - rewrite Hi. simpl. unfold critical_count.
    induction calls as [| c calls IH]; [reflexivity |].
    rewrite fmap_cons. simpl. apply IH.
    + by inversion Hnd.
    + by inversion Hv.
    + by inversion Ha.
Qed.

Lemma config_inv_step c c' : config_inv c → step c c' → config_inv c'.
Proof.
  intros Hinv Hs. inversion Hs as [gs1 g gs2 m g' m' H]. subst c c'.
  destruct Hinv as (HF & Hnd & Hrd & Hcnt). simpl in *.
  apply Forall_app in HF as [HF1 HF2]. apply Forall_cons in HF2 as [Hg HF2].
  unfold critical_count in Hcnt. rewrite sum_list_with_app in Hcnt. simpl in Hcnt.
  assert (Hcrit : in_critical g = true → writer (mu m) = true).
  { intros E. rewrite E in Hcnt. simpl in Hcnt. destruct (writer (mu m)); [done |].
    simpl in Hcnt. lia. }
  destruct (goroutine_step_inv _ _ _ _ Hg Hrd Hcrit H) as (Hg' & Hrd' & Hb & Hframe).
  assert (Hid : g_id g' = g_id g) by (by rewrite (goroutine_step_goto _ _ _ _ H)).
  assert (Hothers : ∀ g2, g2 ∈ gs1 ++ gs2 → g_id g2 ≠ g_id g)
    by (intros g2 Hin; by eapply NoDup_fmap_middle).
  unfold config_inv. simpl. repeat split.
  - apply Forall_app. split; [| apply Forall_cons; split; [exact Hg' |]].
    + rewrite Forall_forall in HF1 |- *. intros g2 Hin.
      apply Hframe; [apply Hothers, elem_of_app; by left | by apply HF1].
    + rewrite Forall_forall in HF2 |- *. intros g2 Hin.
      apply Hframe; [apply Hothers, elem_of_app; by right | by apply HF2].
  - rewrite fmap_app, fmap_cons, Hid. by rewrite fmap_app, fmap_cons in Hnd.
  - exact Hrd'.
  - unfold critical_count. rewrite sum_list_with_app. simpl. lia.
Qed.

Lemma config_inv_nsteps n c c' : config_inv c → nsteps step n c c' → config_inv c'.
Proof.
  intros Hc Hn. induction Hn as [| n c1 c2 c3 H _ IH]; [done |].
  apply IH. by eapply config_inv_step.
Qed.

(** *** Progress and completion *)

Lemma goroutine_step_critical g m :
  in_critical g = true → is_Some (goroutine_step g m).
Proof.
  destruct g as [id cargo k]. unfold in_critical, goroutine_step. simpl.
  destruct k; try discriminate; intros _.
  - case_decide; by eexists.
  - case_decide; by eexists.
  - destruct (trucks m !! id); by eexists.
  - by eexists.
  - unfold Unlock. destruct (writer (mu m)); by eexists.
Qed.

Lemma step_member c g g' m' :
  g ∈ pool c → goroutine_step g (shared c) = Some (g', m') → ∃ c', step c c'.
Proof.
  destruct c as [gs m]. simpl. intros (gs1 & gs2 & ->)%list_elem_of_split H.
  eexists. by constructor.
Qed.

Lemma config_progress c : config_inv c → completed c ∨ ∃ c', step c c'.
Proof.
  intros (HF & _ & Hrd & Hcnt).
  destruct (decide (Forall has_returned (pool c))) as [Hd | Hn]; [by left | right].
  apply not_Forall_Exists in Hn; [| intros g; apply has_returned_dec].
  apply Exists_exists in Hn as (g & Hin & Hg).
  destruct (writer (mu (shared c))) eqn:W; simpl in Hcnt.
  - destruct (critical_count_pos (pool c)) as (g0 & Hin0 & Hc0); [lia |].
    destruct (goroutine_step_critical g0 (shared c) Hc0) as [[g' m'] Hs].
    by eapply step_member.
  - pose proof (critical_count_zero _ _ Hcnt Hin) as Hc.
    rewrite Forall_forall in HF. destruct (HF _ Hin) as (_ & _ & Hpc).
    assert (Hs : goroutine_step g (shared c) =
                 Some (goto g AtCheckID,
                       set_mu (λ _, {| writer := true; readers := 0 |}) (shared c))).
    { unfold in_critical in Hc. unfold goroutine_step.
      destruct (g_pc g) eqn:E; try discriminate.
      - unfold Lock. by rewrite W, Hrd.
      - exfalso. apply Hg. by eexists.
      - done. }
    by eapply step_member.
Qed.

Lemma config_completes c : config_inv c → ∃ c', rtc step c c' ∧ completed c'.
Proof.
  remember (total_remaining (pool c)) as k eqn:Hk. revert c Hk.
  induction k as [k IH] using lt_wf_ind. intros c -> Hinv.
  destruct (config_progress c Hinv) as [Hd | [c1 Hs]].
  - exists c. split; [reflexivity | exact Hd].
  - destruct (IH _ (step_remaining _ _ Hs) c1 eq_refl (config_inv_step _ _ Hinv Hs))
      as (c2 & Hrtc & Hd).
    exists c2. split; [by eapply rtc_l | exact Hd].
Qed.

Lemma completed_not_critical gs : Forall has_returned gs → critical_count gs = 0%nat.
Proof.
  unfold critical_count. induction 1 as [| g gs [r Hr] _ IH]; [reflexivity |].
  simpl. unfold in_critical. by rewrite Hr.
Qed.

Lemma completed_results c :
  config_inv c → completed c →
  idle (shared c) ∧
  Forall (λ g, g_pc g = Returned None) (pool c) ∧
  ∀ g, g ∈ pool c →
    GetTruck (g_id g) (shared c)
      = Return ({| ID := g_id g; Cargo := g_cargo g |}, None) (shared c).
Proof.
  intros (HF & _ & Hrd & Hcnt) Hd.
  rewrite (completed_not_critical _ Hd) in Hcnt.
  assert (Hi : idle (shared c)).
  { unfold idle, RWMutex_zero. destruct (mu (shared c)) as [w r]. simpl in *.
    subst r. by destruct w. }
  unfold completed in Hd. rewrite Forall_forall in HF, Hd.
  split; [exact Hi |]. split.
  - apply Forall_forall. intros g Hin. destruct (Hd _ Hin) as [r Hr].
    destruct (HF _ Hin) as (_ & _ & Hpc). rewrite Hr in Hpc. rewrite Hr.
    by destruct Hpc as [-> _].
  - intros g Hin. destruct (Hd _ Hin) as [r Hr].
    destruct (HF _ Hin) as (Hne & _ & Hpc). rewrite Hr in Hpc.
    destruct Hpc as (_ & p & Hl & Ho). by eapply GetTruck_present.
Qed.

(** *** Concurrent adds *)

Lemma call_in_pool c calls id cargo :
  call_of <$> pool c = calls → (id, cargo) ∈ calls →
  ∃ g, g ∈ pool c ∧ g_id g = id ∧ g_cargo g = cargo.
Proof.
  intros <- (g & Hg & Hin)%list_elem_of_fmap. exists g.
  unfold call_of in Hg. by injection Hg as -> ->.
Qed.

(** C9, as amended.  Goroutines call [AddTruck] with pairwise distinct
    non-empty ids, none of which the registry holds, and cargos that are
    not negative.  Then some schedule runs all the calls to their return;
    and after any number of moves under any schedule: at most
    [6 * N] moves were made, at most one goroutine is between [Lock] and
    [Unlock], either every call has returned or some goroutine can move,
    and once every call has returned each returned [nil], the mutex is
    free and [GetTruck] returns for each call the record [{id, cargo}]. *)
Theorem concurrent_adds calls m :
  reachable m →
  NoDup calls.*1 →
  Forall valid_call calls →
  Forall (λ c, trucks m !! c.1 = None) calls →
  (∃ c, rtc step (spawn calls m) c ∧ completed c) ∧
  ∀ n c, nsteps step n (spawn calls m) c →
    (n ≤ 6 * length calls)%nat ∧
    (critical_count (pool c) ≤ 1)%nat ∧
    (completed c ∨ ∃ c', step c c') ∧
    (completed c →
       idle (shared c) ∧
       Forall (λ g, g_pc g = Returned None) (pool c) ∧
       ∀ id cargo, (id, cargo) ∈ calls →
         GetTruck id (shared c)
           = Return ({| ID := id; Cargo := cargo |}, None) (shared c)).
Proof.
  intros Hr Hnd Hv Ha.
  pose proof (config_inv_spawn calls m (reachable_idle _ Hr) Hnd Hv Ha) as Hinv0.
  split; [by apply config_completes |].
  intros n c Hn. pose proof (config_inv_nsteps _ _ _ Hinv0 Hn) as Hinv.
  split; [| split; [| split]].
  - pose proof (nsteps_remaining _ _ _ Hn) as Hle.
    rewrite total_remaining_spawn in Hle. lia.
  - destruct Hinv as (_ & _ & _ & ->). destruct (writer (mu (shared c))); simpl; lia.
  - by apply config_progress.
  - intros Hd. destruct (completed_results c Hinv Hd) as (Hi & Hall & Hget).
    split; [exact Hi |]. split; [exact Hall |]. intros id cargo Hin.
    destruct (call_in_pool c calls id cargo) as (g & Hg & <- & <-);
      [by rewrite (nsteps_calls _ _ _ Hn), calls_spawn | exact Hin |].
    by apply Hget.
Qed.

Lemma concurrent_adds_witness :
  (∃ c, rtc step (spawn two_new_calls main_m2) c ∧ completed c) ∧
  (12 ≤ 6 * length two_new_calls)%nat ∧
  (critical_count (pool (final_of second_first (spawn two_new_calls main_m2))) ≤ 1)%nat ∧
  (completed (final_of second_first (spawn two_new_calls main_m2)) ∨
   ∃ c', step (final_of second_first (spawn two_new_calls main_m2)) c') ∧
  (completed (final_of second_first (spawn two_new_calls main_m2)) →
     idle (shared (final_of second_first (spawn two_new_calls main_m2))) ∧
     Forall (λ g, g_pc g = Returned None)
            (pool (final_of second_first (spawn two_new_calls main_m2))) ∧
     ∀ id cargo, (id, cargo) ∈ two_new_calls →
       GetTruck id (shared (final_of second_first (spawn two_new_calls main_m2)))
         = Return ({| ID := id; Cargo := cargo |}, None)
                  (shared (final_of second_first (spawn two_new_calls main_m2)))).
Proof.
  assert (H : reachable main_m2 ∧ NoDup two_new_calls.*1 ∧
              Forall valid_call two_new_calls ∧
              Forall (λ c, trucks main_m2 !! c.1 = None) two_new_calls).
  { split; [exact reachable_main_m2 |]. split; [| split].
    - apply (bool_decide_unpack _). vm_compute. exact I.
    - repeat constructor; simpl; (discriminate || lia).
    - repeat constructor. }
  destruct H as (H1 & H2 & H3 & H4).
  split; [exact (proj1 (concurrent_adds two_new_calls main_m2 H1 H2 H3 H4)) |].
  apply (proj2 (concurrent_adds two_new_calls main_m2 H1 H2 H3 H4) 12%nat).
  apply (run_schedule_nsteps second_first). reflexivity.
Defined.

Example second_first_completed :
  completed (final_of second_first (spawn two_new_calls main_m2)).
Proof. repeat constructor; by eexists. Qed.

(** The records after the concurrent adds of the example. *)
Example second_first_records :
  result (GetTruck "truck3") (shared (final_of second_first (spawn two_new_calls main_m2)))
    = Some ({| ID := "truck3"; Cargo := 3000 |}, None) ∧
  result (GetTruck "truck4") (shared (final_of second_first (spawn two_new_calls main_m2)))
    = Some ({| ID := "truck4"; Cargo := 4000 |}, None) ∧
  result (GetTruck "truck1") (shared (final_of second_first (spawn two_new_calls main_m2)))
    = Some ({| ID := "truck1"; Cargo := 1000 |}, None).
Proof. repeat split; reflexivity. Qed.

(** C9, as stated, fails when the registry already holds one of the ids.
    On the registry of [main] after its two adds, two goroutines add
    truck1 with cargo 1500 and truck3 with cargo 3000: distinct non-empty
    ids, cargos not negative.  Both calls return, the one for truck1 with
    [ErrTruckExist], and the registry keeps truck1 with cargo 1000. *)
Lemma concurrent_adds_on_any_registry_fails :
  reachable main_m2 ∧
  NoDup one_old_call.*1 ∧
  Forall valid_call one_old_call ∧
  rtc step (spawn one_old_call main_m2)
           (final_of second_first_old (spawn one_old_call main_m2)) ∧
  completed (final_of second_first_old (spawn one_old_call main_m2)) ∧
  ("truck1", 1500) ∈ one_old_call ∧
  GetTruck "truck1" (shared (final_of second_first_old (spawn one_old_call main_m2)))
    = Return ({| ID := "truck1"; Cargo := 1000 |}, None)
             (shared (final_of second_first_old (spawn one_old_call main_m2))) ∧
  ¬ concurrent_adds_on_any_registry.
Proof.
  assert (Hnd : NoDup one_old_call.*1)
    by (apply (bool_decide_unpack _); vm_compute; exact I).
  assert (Hv : Forall valid_call one_old_call)
    by (repeat constructor; simpl; (discriminate || lia)).
  assert (Hrun : rtc step (spawn one_old_call main_m2)
                   (final_of second_first_old (spawn one_old_call main_m2))).
  { apply (rtc_nsteps_2 (length second_first_old)).
    apply (run_schedule_nsteps second_first_old). reflexivity. }
  assert (Hd : completed (final_of second_first_old (spawn one_old_call main_m2)))
    by (repeat constructor; by eexists).
  assert (Hin : ("truck1", 1500) ∈ one_old_call) by left.
  split; [exact reachable_main_m2 |]. split; [exact Hnd |]. split; [exact Hv |].
  split; [exact Hrun |]. split; [exact Hd |]. split; [exact Hin |].
  split; [reflexivity |].
  intros H.
  specialize (H one_old_call main_m2 _ reachable_main_m2 Hnd Hv Hrun Hd _ _ Hin).
  vm_compute in H. discriminate H.
Qed.

Example one_old_call_returns :
  g_pc <$> pool (final_of second_first_old (spawn one_old_call main_m2))
    = [Returned (Some ErrTruckExist); Returned None].
Proof. reflexivity. Qed.

(** ** More on the four methods, one call at a time *)

(** [GetTruck] reads the entry of its id and the object it points to. *)
Lemma GetTruck_same_data m m' id :
  idle m → idle m' →
  trucks m' !! id = trucks m !! id →
  (∀ p, trucks m !! id = Some p → objs m' !! p = objs m !! p) →
  ∀ r, GetTruck id m = Return r m → GetTruck id m' = Return r m'.
Proof.
  intros Hi Hi' Ht Ho r. rewrite !GetTruck_idle by done. rewrite Ht.
  case_decide; [by intros [= <-] |].
  destruct (trucks m !! id) as [p|] eqn:Hl; [| by intros [= <-]].
  rewrite (Ho p eq_refl).
  destruct (objs m !! p); [by intros [= <-] | discriminate].
Qed.

(** X1. [GetTruck] on a registry of the program returns the zero [Truck]
    with [ErrEmptyID] for the empty id, the zero [Truck] with
    [ErrTruckNotFound] for an id the registry does not hold, and otherwise
    a record whose [ID] is the id asked for and whose cargo is not
    negative, with [nil]. *)
Theorem GetTruck_cases m id :
  reachable m →
  ∃ t e, GetTruck id m = Return (t, e) m ∧
    ( (id = "" ∧ t = Truck_zero ∧ e = Some ErrEmptyID)
    ∨ (id ≠ "" ∧ trucks m !! id = None ∧ t = Truck_zero ∧ e = Some ErrTruckNotFound)
    ∨ (id ≠ "" ∧ is_Some (trucks m !! id) ∧ e = None ∧ ID t = id ∧ 0 ≤ Cargo t) ).
Proof.
  intros Hr. pose proof (reachable_wf _ Hr) as Hwf.
  rewrite (GetTruck_idle _ _ (wf_idle _ Hwf)).
  case_decide as Hid; [eexists _, _; split; [reflexivity | by left] |].
  destruct (trucks m !! id) as [p|] eqn:Hl.
  - destruct (wf_lookup _ _ _ Hwf Hl) as (_ & t & Ho & Ht & Hc). rewrite Ho.
    eexists _, _. split; [reflexivity |]. right; right. by repeat split.
  - eexists _, _. split; [reflexivity |]. right; left. by repeat split.
Qed.

Lemma GetTruck_cases_witness :
  ∃ t e, GetTruck "truck2" main_m2 = Return (t, e) main_m2 ∧
    ( ("truck2" = "" ∧ t = Truck_zero ∧ e = Some ErrEmptyID)
    ∨ ("truck2" ≠ "" ∧ trucks main_m2 !! "truck2" = None ∧ t = Truck_zero ∧
       e = Some ErrTruckNotFound)
    ∨ ("truck2" ≠ "" ∧ is_Some (trucks main_m2 !! "truck2") ∧ e = None ∧
       ID t = "truck2" ∧ 0 ≤ Cargo t) ).
Proof. apply (GetTruck_cases main_m2 "truck2"). exact reachable_main_m2. Defined.

(** X2. [UpdateTruckCargo] on a registry of the program always returns:
    [ErrEmptyID] for the empty id; else [ErrInvalidCargo] for a negative
    cargo; else [ErrTruckNotFound] for an id the registry does not hold;
    else [nil].  In the three error cases the memory is the one it started
    on; in every case the map (keys and pointers) is unchanged. *)
Theorem UpdateTruckCargo_cases m id cargo :
  reachable m →
  ∃ r m', UpdateTruckCargo id cargo m = Return r m' ∧ trucks m' = trucks m ∧
    ( (id = "" ∧ r = Some ErrEmptyID ∧ m' = m)
    ∨ (id ≠ "" ∧ cargo < 0 ∧ r = Some ErrInvalidCargo ∧ m' = m)
    ∨ (id ≠ "" ∧ 0 ≤ cargo ∧ trucks m !! id = None ∧ r = Some ErrTruckNotFound ∧ m' = m)
    ∨ (id ≠ "" ∧ 0 ≤ cargo ∧ is_Some (trucks m !! id) ∧ r = None) ).
Proof.
  intros Hr. pose proof (reachable_wf _ Hr) as Hwf.
  rewrite (UpdateTruckCargo_idle _ _ _ (wf_idle _ Hwf)).
  case_decide as Hid; [eexists _, _; split; [reflexivity | split; [done | by left]] |].
  case_decide as Hc;
    [eexists _, _; split; [reflexivity | split; [done | right; by left]] |].
  destruct (trucks m !! id) as [p|] eqn:Hl.
  - destruct (wf_lookup _ _ _ Hwf Hl) as (_ & t & Ho & _). rewrite Ho.
    eexists _, _. split; [reflexivity |]. split; [done |]. right; right; right.
    split; [done |]. split; [lia |]. split; [by eexists | done].
  - eexists _, _. split; [reflexivity |]. split; [done |]. right; right; left.
    split; [done |]. split; [lia |]. done.
Qed.

Lemma UpdateTruckCargo_cases_witness :
  ∃ r m', UpdateTruckCargo "truck7" 5 main_m2 = Return r m' ∧
    trucks m' = trucks main_m2 ∧
    ( ("truck7" = "" ∧ r = Some ErrEmptyID ∧ m' = main_m2)
    ∨ ("truck7" ≠ "" ∧ 5 < 0 ∧ r = Some ErrInvalidCargo ∧ m' = main_m2)
    ∨ ("truck7" ≠ "" ∧ 0 ≤ 5 ∧ trucks main_m2 !! "truck7" = None ∧
       r = Some ErrTruckNotFound ∧ m' = main_m2)
    ∨ ("truck7" ≠ "" ∧ 0 ≤ 5 ∧ is_Some (trucks main_m2 !! "truck7") ∧ r = None) ).
Proof. apply (UpdateTruckCargo_cases main_m2 "truck7" 5). exact reachable_main_m2. Defined.

(** X3. [RemoveTruck] on a registry of the program always returns:
    [ErrEmptyID] for the empty id; else [ErrTruckNotFound] for an id the
    registry does not hold, the memory being the one it started on in both
    cases; else [nil], and then the registry is smaller by exactly one,
    no object has changed and [GetTruck] answers for every other id as
    before. *)
Theorem RemoveTruck_cases m id :
  reachable m →
  ∃ r m', RemoveTruck id m = Return r m' ∧
    ( (id = "" ∧ r = Some ErrEmptyID ∧ m' = m)
    ∨ (id ≠ "" ∧ trucks m !! id = None ∧ r = Some ErrTruckNotFound ∧ m' = m)
    ∨ (id ≠ "" ∧ is_Some (trucks m !! id) ∧ r = None ∧
       S (registry_size m') = registry_size m ∧
       objs m' = objs m ∧
       others_unchanged id m m') ).
Proof.
  intros Hr. pose proof (reachable_idle _ Hr) as Hi.
  rewrite (RemoveTruck_idle _ _ Hi).
  case_decide as Hid; [eexists _, _; split; [reflexivity | by left] |].
  destruct (trucks m !! id) as [p|] eqn:Hl.
  - eexists _, _. split; [reflexivity |]. right; right.
    split; [done |]. split; [by eexists |]. split; [done |]. split; [| split; [done |]].
    + unfold registry_size. simpl. rewrite map_size_delete, Hl. simpl.
      assert (size (trucks m) ≠ 0%nat); [| lia].
      intros H0. apply map_size_empty_inv in H0. rewrite H0 in Hl.
      by rewrite lookup_empty in Hl.
    + intros id' r Hne. apply GetTruck_same_data; [done | done | |].
      * simpl. by apply lookup_delete_ne.
      * done.
  - eexists _, _. split; [reflexivity |]. right; left. done.
Qed.

Lemma RemoveTruck_cases_witness :
  ∃ r m', RemoveTruck "truck2" main_m2 = Return r m' ∧
    ( ("truck2" = "" ∧ r = Some ErrEmptyID ∧ m' = main_m2)
    ∨ ("truck2" ≠ "" ∧ trucks main_m2 !! "truck2" = None ∧
       r = Some ErrTruckNotFound ∧ m' = main_m2)
    ∨ ("truck2" ≠ "" ∧ is_Some (trucks main_m2 !! "truck2") ∧ r = None ∧
       S (registry_size m') = registry_size main_m2 ∧
       objs m' = objs main_m2 ∧
       others_unchanged "truck2" main_m2 m') ).
Proof. apply (RemoveTruck_cases main_m2 "truck2"). exact reachable_main_m2. Defined.

(** X4. A successful [AddTruck] changes nothing else: the objects that
    existed are unchanged and [GetTruck] answers for every other id as
    before. *)
Theorem AddTruck_frame m id cargo m' :
  reachable m → AddTruck id cargo m = Return None m' →
  (∀ p t, objs m !! p = Some t → objs m' !! p = Some t) ∧
  others_unchanged id m m'.
Proof.
  intros Hr H. pose proof (reachable_wf _ Hr) as Hwf. pose proof (wf_idle _ Hwf) as Hi.
  rewrite (AddTruck_idle _ _ _ Hi) in H.
  repeat case_decide; try discriminate.
  destruct (trucks m !! id) eqn:Hl; [discriminate |]. injection H as <-.
  split.
  - intros p t Ho. simpl. by apply lookup_app_l_Some.
  - intros id' r Hne. apply GetTruck_same_data; [done | done | |].
    + simpl. by apply lookup_insert_ne.
    + intros p Hp. simpl. destruct (wf_lookup _ _ _ Hwf Hp) as (_ & t & Ho & _).
      rewrite Ho. by apply lookup_app_l_Some.
Qed.

Lemma AddTruck_frame_witness :
  (∀ p t, objs main_m1 !! p = Some t → objs main_m2 !! p = Some t) ∧
  others_unchanged "truck2" main_m1 main_m2.
Proof.
  apply (AddTruck_frame main_m1 "truck2" 2000 main_m2).
  - exact reachable_main_m1.
  - reflexivity.
Defined.

(** ** The methods and the mutex *)

Lemma idle_or_not m : idle m ∨ ¬ idle m.
Proof.
  destruct m as [t [w r] o]. unfold idle, RWMutex_zero. simpl.
  destruct w; [by right |]. destruct r; [by left | by right].
Qed.

Lemma not_idle_Lock m : ¬ idle m → Lock m = Blocked.
Proof.
  destruct m as [t [w r] o]. unfold idle, RWMutex_zero, Lock. simpl.
  destruct w; [done |]. destruct r; [| done]. intros H. by destruct H.
Qed.

Lemma UpdateTruckCargo_invalid m id cargo :
  id ≠ "" → cargo < 0 →
  UpdateTruckCargo id cargo m = Return (Some ErrInvalidCargo) m.
Proof.
  intros Hid Hc. unfold UpdateTruckCargo.
  rewrite decide_False by done. by rewrite decide_True by done.
Qed.

Lemma held_mutex_blocks m id cargo :
  ¬ idle m →
  AddTruck id cargo m = Blocked ∧
  RemoveTruck id m = Blocked ∧
  (id ≠ "" → 0 ≤ cargo → UpdateTruckCargo id cargo m = Blocked).
Proof.
  intros Hn. pose proof (not_idle_Lock _ Hn) as HL. split; [| split].
  - unfold AddTruck. unfold mbind at 1. unfold M_bind at 1. by rewrite HL.
  - unfold RemoveTruck. unfold mbind at 1. unfold M_bind at 1. by rewrite HL.
  - intros Hid Hc. unfold UpdateTruckCargo.
    rewrite decide_False by done. rewrite decide_False by lia.
    unfold mbind at 1. unfold M_bind at 1. by rewrite HL.
Qed.

(** X5. [UpdateTruckCargo] and [GetTruck] test their arguments before
    they take the mutex: on an empty id, and [UpdateTruckCargo] on a
    negative cargo, they return their error whoever holds the mutex and
    leave the memory as it is.  [AddTruck] and [RemoveTruck] take the mutex
    first: while it is held they block whatever their arguments, as
    [UpdateTruckCargo] does on valid arguments, and [GetTruck] on a
    non-empty id blocks while a writer holds it. *)
Theorem validation_and_mutex m id cargo :
  UpdateTruckCargo "" cargo m = Return (Some ErrEmptyID) m ∧
  GetTruck "" m = Return (Truck_zero, Some ErrEmptyID) m ∧
  (id ≠ "" → cargo < 0 →
     UpdateTruckCargo id cargo m = Return (Some ErrInvalidCargo) m) ∧
  (¬ idle m →
     AddTruck id cargo m = Blocked ∧
     RemoveTruck id m = Blocked ∧
     (id ≠ "" → 0 ≤ cargo → UpdateTruckCargo id cargo m = Blocked)) ∧
  (writer (mu m) = true → id ≠ "" → GetTruck id m = Blocked).
Proof.
  split; [reflexivity |]. split; [reflexivity |]. split; [| split].
  - apply UpdateTruckCargo_invalid.
  - apply held_mutex_blocks.
  - intros Hw Hid. unfold GetTruck. rewrite decide_False by done.
    unfold mbind at 1. unfold M_bind at 1. unfold RLock. by rewrite Hw.
Qed.

Lemma validation_and_mutex_witness :
  UpdateTruckCargo "truck1" (-3) (with_mu {| writer := true; readers := 0 |} main_m2)
    = Return (Some ErrInvalidCargo) (with_mu {| writer := true; readers := 0 |} main_m2) ∧
  AddTruck "" (-3) (with_mu {| writer := true; readers := 0 |} main_m2) = Blocked ∧
  RemoveTruck "" (with_mu {| writer := true; readers := 0 |} main_m2) = Blocked ∧
  UpdateTruckCargo "truck1" 7 (with_mu {| writer := true; readers := 0 |} main_m2) = Blocked ∧
  GetTruck "truck1" (with_mu {| writer := true; readers := 0 |} main_m2) = Blocked.
Proof.
  destruct (validation_and_mutex (with_mu {| writer := true; readers := 0 |} main_m2)
              "truck1" (-3)) as (_ & _ & H3 & _ & H5).
  destruct (validation_and_mutex (with_mu {| writer := true; readers := 0 |} main_m2)
              "" (-3)) as (_ & _ & _ & H4 & _).
  destruct (validation_and_mutex (with_mu {| writer := true; readers := 0 |} main_m2)
              "truck1" 7) as (_ & _ & _ & H4' & _).
  split; [apply H3; [discriminate | lia] |].
  split; [apply H4; discriminate |].
  split; [apply H4; discriminate |].
  split; [apply H4'; [discriminate | discriminate | lia] |].
  apply H5; [reflexivity | discriminate].
Defined.

(** X6. No method keeps the mutex: whatever the memory and the state of
    the mutex when it is called, a method that returns leaves the mutex in
    the state it found it in, whether it returns a value or an error. *)
Theorem mutex_released :
  (∀ m id cargo r m', AddTruck id cargo m = Return r m' → mu m' = mu m) ∧
  (∀ m id r m', GetTruck id m = Return r m' → mu m' = mu m) ∧
  (∀ m id cargo r m', UpdateTruckCargo id cargo m = Return r m' → mu m' = mu m) ∧
  (∀ m id r m', RemoveTruck id m = Return r m' → mu m' = mu m).
Proof.
  split; [| split; [| split]].
  - intros m id cargo r m' H. pose proof (AddTruck_Return_idle _ _ _ _ _ H) as Hi.
    rewrite (AddTruck_idle _ _ _ Hi) in H.
    repeat case_decide; try (by injection H as _ <-).
    destruct (trucks m !! id); by injection H as _ <-.
  - intros m id r m' H. by rewrite (GetTruck_unchanged _ _ _ _ H).
  - intros m id cargo r m' H. destruct (idle_or_not m) as [Hi | Hn].
    + rewrite (UpdateTruckCargo_idle _ _ _ Hi) in H.
      repeat case_decide; try (by injection H as _ <-).
      destruct (trucks m !! id) as [p|]; [| by injection H as _ <-].
      destruct (objs m !! p); [by injection H as _ <- | discriminate].
    + destruct (decide (id = "")) as [-> | Hid].
      { change (UpdateTruckCargo "" cargo m) with (Return (Some ErrEmptyID) m) in H.
        by injection H as _ <-. }
      destruct (decide (cargo < 0)) as [Hc | Hc].
      { rewrite (UpdateTruckCargo_invalid _ _ _ Hid Hc) in H. by injection H as _ <-. }
      destruct (held_mutex_blocks m id cargo Hn) as (_ & _ & H5).
      rewrite H5 in H by (done || lia). discriminate.
  - intros m id r m' H. destruct (idle_or_not m) as [Hi | Hn].
    + rewrite (RemoveTruck_idle _ _ Hi) in H.
      case_decide; try (by injection H as _ <-).
      destruct (trucks m !! id); by injection H as _ <-.
    + destruct (held_mutex_blocks m id 0 Hn) as (_ & H5 & _).
      rewrite H5 in H. discriminate.
Qed.

Lemma mutex_released_witness :
  mu main_m1 = mu NewTruckManager ∧
  mu (after (GetTruck "truck1") main_m2) = mu main_m2 ∧
  mu main_m4 = mu main_m3 ∧
  mu main_m5 = mu main_m4.
Proof.
  destruct mutex_released as (H1 & H2 & H3 & H4).
  split; [| split; [| split]].
  - apply (H1 NewTruckManager "truck1" 1000 None). reflexivity.
  - apply (H2 main_m2 "truck1" ({| ID := "truck1"; Cargo := 1000 |}, None)). reflexivity.
  - apply (H3 main_m3 "truck1" 1500 None). reflexivity.
  - apply (H4 main_m4 "truck1" None). reflexivity.
Defined.



(** ** Calls in sequence *)

(** X8. Adding a new truck and removing it again gives back the map the
    registry had, with the same size, and [GetTruck] answers for every id
    as it did before the two calls. *)
Theorem AddTruck_then_RemoveTruck m id cargo :
  reachable m → id ≠ "" → trucks m !! id = None → 0 ≤ cargo →
  ∃ m1 m2, AddTruck id cargo m = Return None m1 ∧
           RemoveTruck id m1 = Return None m2 ∧
           trucks m2 = trucks m ∧
           registry_size m2 = registry_size m ∧
           same_answers m m2.
Proof.
  intros Hr Hid Hl Hc. pose proof (reachable_wf _ Hr) as Hwf.
  pose proof (wf_idle _ Hwf) as Hi.
  destruct (AddTruck_fresh m id cargo Hi Hid Hc Hl) as (m1 & Hadd & Hi1 & Ht1 & Ho1).
  exists m1. rewrite (RemoveTruck_idle _ _ Hi1). rewrite decide_False by done.
  rewrite Ht1, lookup_insert_eq. eexists. split; [exact Hadd |]. split; [reflexivity |].
  simpl. rewrite delete_insert_id by done.
  split; [reflexivity |]. split; [reflexivity |].
  intros id' r. apply GetTruck_same_data; [done | done | done |].
  intros p Hp. simpl. rewrite Ho1.
  destruct (wf_lookup _ _ _ Hwf Hp) as (_ & t & Ho & _).
  rewrite Ho. by apply lookup_app_l_Some.
Qed.

Lemma AddTruck_then_RemoveTruck_witness :
  ∃ m1 m2, AddTruck "truck3" 3000 main_m2 = Return None m1 ∧
           RemoveTruck "truck3" m1 = Return None m2 ∧
           trucks m2 = trucks main_m2 ∧
           registry_size m2 = registry_size main_m2 ∧
           same_answers main_m2 m2.
Proof.
  apply (AddTruck_then_RemoveTruck main_m2 "truck3" 3000).
  - exact reachable_main_m2.
  - discriminate.
  - reflexivity.
  - lia.
Defined.

(** X9. A truck that was removed can be added again: on a registry that
    holds [id], [RemoveTruck id] followed by [AddTruck id cargo] with a
    cargo that is not negative both return [nil]; afterwards [GetTruck id]
    returns [{id, cargo}], the registry has the size it had and [GetTruck]
    answers for every other id as before. *)
Theorem RemoveTruck_then_AddTruck m id cargo :
  reachable m → is_Some (trucks m !! id) → 0 ≤ cargo →
  ∃ m1 m2, RemoveTruck id m = Return None m1 ∧
           AddTruck id cargo m1 = Return None m2 ∧
           GetTruck id m2 = Return ({| ID := id; Cargo := cargo |}, None) m2 ∧
           registry_size m2 = registry_size m ∧
           others_unchanged id m m2.
Proof.
  intros Hr [p Hl] Hc. pose proof (reachable_wf _ Hr) as Hwf.
  pose proof (wf_idle _ Hwf) as Hi.
  destruct (wf_lookup _ _ _ Hwf Hl) as (Hid & _).
  rewrite (RemoveTruck_idle _ _ Hi). rewrite decide_False by done. rewrite Hl.
  eexists. 
  destruct (AddTruck_fresh
              {| trucks := delete id (trucks m); mu := mu m; objs := objs m |}
              id cargo Hi Hid Hc (lookup_delete_eq _ _))
    as (m2 & Hadd & Hi2 & Ht2 & Ho2). simpl in Ht2, Ho2.
  exists m2. split; [reflexivity |]. split; [exact Hadd |]. split; [| split].
  - apply (GetTruck_present m2 id (length (objs m))); [done | done | |].
    + rewrite Ht2. apply lookup_insert_eq.
    + rewrite Ho2. by apply list_lookup_middle.
  - unfold registry_size. rewrite Ht2, insert_delete_eq.
    apply map_size_insert_Some. by eexists.
  - intros id' r Hne. apply GetTruck_same_data; [done | done | |].
    + rewrite Ht2. rewrite lookup_insert_ne by done. by apply lookup_delete_ne.
    + intros q Hq. rewrite Ho2. destruct (wf_lookup _ _ _ Hwf Hq) as (_ & t & Ho & _).
      rewrite Ho. by apply lookup_app_l_Some.
Qed.

Lemma RemoveTruck_then_AddTruck_witness :
  ∃ m1 m2, RemoveTruck "truck1" main_m2 = Return None m1 ∧
           AddTruck "truck1" 42 m1 = Return None m2 ∧
           GetTruck "truck1" m2 = Return ({| ID := "truck1"; Cargo := 42 |}, None) m2 ∧
           registry_size m2 = registry_size main_m2 ∧
           others_unchanged "truck1" main_m2 m2.
Proof.
  apply (RemoveTruck_then_AddTruck main_m2 "truck1" 42).
  - exact reachable_main_m2.
  - exists 0%nat. reflexivity.
  - lia.
Defined.

(** X10. The last update wins: on a registry that holds [id], two updates
    of [id] in a row leave exactly the memory the second one alone
    leaves. *)
Theorem UpdateTruckCargo_twice m id c1 c2 :
  reachable m → is_Some (trucks m !! id) → 0 ≤ c1 → 0 ≤ c2 →
  ∃ m1 m2, UpdateTruckCargo id c1 m = Return None m1 ∧
           UpdateTruckCargo id c2 m1 = Return None m2 ∧
           UpdateTruckCargo id c2 m = Return None m2.
Proof.
  intros Hr [p Hl] H1 H2. pose proof (reachable_wf _ Hr) as Hwf.
  pose proof (wf_idle _ Hwf) as Hi.
  destruct (wf_lookup _ _ _ Hwf Hl) as (Hid & t & Ho & _).
  rewrite !(UpdateTruckCargo_idle _ _ m Hi).
  rewrite !decide_False by (done || lia). rewrite Hl, Ho.
  eexists _, _. split; [reflexivity |]. split; [| reflexivity].
  rewrite UpdateTruckCargo_idle by exact Hi.
  rewrite !decide_False by (done || lia). simpl. rewrite Hl.
  rewrite list_lookup_insert_eq by (by eapply lookup_lt_Some). simpl.
  by rewrite list_insert_insert_eq.
Qed.

Lemma UpdateTruckCargo_twice_witness :
  ∃ m1 m2, UpdateTruckCargo "truck1" 1 main_m2 = Return None m1 ∧
           UpdateTruckCargo "truck1" 2 m1 = Return None m2 ∧
           UpdateTruckCargo "truck1" 2 main_m2 = Return None m2.
Proof.
  apply (UpdateTruckCargo_twice main_m2 "truck1" 1 2).
  - exact reachable_main_m2.
  - exists 0%nat. reflexivity.
  - lia.
  - lia.
Defined.

(** X11. Writing back the cargo a truck has changes nothing: if
    [GetTruck id] returns the record [t], then [UpdateTruckCargo id t.Cargo]
    returns [nil] and leaves the memory it started on. *)
Theorem UpdateTruckCargo_same m id t :
  reachable m → GetTruck id m = Return (t, None) m →
  UpdateTruckCargo id (Cargo t) m = Return None m.
Proof.
  intros Hr. pose proof (reachable_wf _ Hr) as Hwf. pose proof (wf_idle _ Hwf) as Hi.
  rewrite (GetTruck_idle _ _ Hi), (UpdateTruckCargo_idle _ _ _ Hi).
  case_decide as Hid; [discriminate |].
  destruct (trucks m !! id) as [p|] eqn:Hl; [| discriminate].
  destruct (wf_lookup _ _ _ Hwf Hl) as (_ & t' & Ho & _ & Hc). rewrite Ho.
  intros [= <-]. rewrite decide_False by lia.
  destruct m as [tr k o]. simpl in *. do 2 f_equal.
  apply list_insert_id. by destruct t'.
Qed.

Lemma UpdateTruckCargo_same_witness :
  UpdateTruckCargo "truck1" (Cargo {| ID := "truck1"; Cargo := 1000 |}) main_m2
    = Return None main_m2.
Proof.
  apply (UpdateTruckCargo_same main_m2 "truck1").
  - exact reachable_main_m2.
  - reflexivity.
Defined.

(** X12. No two keys share a [Truck] object, and every pointer of the map
    refers to an allocated object: in a registry of the program two keys
    with the same pointer are the same key. *)
Theorem pointers_distinct m id1 id2 p :
  reachable m → trucks m !! id1 = Some p → trucks m !! id2 = Some p →
  id1 = id2 ∧ (p < length (objs m))%nat.
Proof.
  intros Hr H1 H2. pose proof (reachable_wf _ Hr) as Hwf.
  destruct (wf_lookup _ _ _ Hwf H1) as (_ & t1 & Ho1 & Hid1 & _).
  destruct (wf_lookup _ _ _ Hwf H2) as (_ & t2 & Ho2 & Hid2 & _).
  split; [congruence | by eapply lookup_lt_Some].
Qed.

Lemma pointers_distinct_witness : "truck2" = "truck2" ∧ (1 < length (objs main_m2))%nat.
Proof.
  apply (pointers_distinct main_m2 "truck2" "truck2" 1%nat).
  - exact reachable_main_m2.
  - reflexivity.
  - reflexivity.
Defined.

(** ** Workers *)

Lemma run_call_idle c m :
  idle m →
  run_call c m =
    match c with
    | CallAdd id cargo =>
        if decide (id = "") then Return (Err (Some ErrEmptyID)) m
        else if decide (cargo < 0) then Return (Err (Some ErrInvalidCargo)) m
        else match trucks m !! id with
             | Some _ => Return (Err (Some ErrTruckExist)) m
             | None =>
                 Return (Err None)
                   {| trucks := <[id := length (objs m)]> (trucks m); mu := mu m;
                      objs := objs m ++ [{| ID := id; Cargo := cargo |}] |}
             end
    | CallGet id =>
        if decide (id = "") then Return (Got Truck_zero (Some ErrEmptyID)) m
        else match trucks m !! id with
             | None => Return (Got Truck_zero (Some ErrTruckNotFound)) m
             | Some p => match objs m !! p with
                         | Some t => Return (Got t None) m
                         | None => Panic
                         end
             end
    | CallUpdate id cargo =>
        if decide (id = "") then Return (Err (Some ErrEmptyID)) m
        else if decide (cargo < 0) then Return (Err (Some ErrInvalidCargo)) m
        else match trucks m !! id with
             | None => Return (Err (Some ErrTruckNotFound)) m
             | Some p =>
                 match objs m !! p with
                 | Some t =>
                     Return (Err None)
                       {| trucks := trucks m; mu := mu m;
                          objs := <[p := {| ID := ID t; Cargo := cargo |}]> (objs m) |}
                 | None => Panic
                 end
             end
    | CallRemove id =>
        if decide (id = "") then Return (Err (Some ErrEmptyID)) m
        else match trucks m !! id with
             | None => Return (Err (Some ErrTruckNotFound)) m
             | Some _ =>
                 Return (Err None)
                   {| trucks := delete id (trucks m); mu := mu m; objs := objs m |}
             end
    end.
Proof.
  intros Hi. destruct c as [id cargo | id | id cargo | id]; unfold run_call;
    unfold mbind, M_bind.
  - rewrite (AddTruck_idle _ _ _ Hi). repeat case_decide; try reflexivity.
    by destruct (trucks m !! id).
  - rewrite (GetTruck_idle _ _ Hi). case_decide; try reflexivity.
    destruct (trucks m !! id) as [p|]; [| reflexivity]. by destruct (objs m !! p).
  - rewrite (UpdateTruckCargo_idle _ _ _ Hi). repeat case_decide; try reflexivity.
    destruct (trucks m !! id) as [p|]; [| reflexivity]. by destruct (objs m !! p).
  - rewrite (RemoveTruck_idle _ _ Hi). case_decide; try reflexivity.
    by destruct (trucks m !! id).
Qed.

Lemma run_call_reachable c m r m' :
  reachable m → run_call c m = Return r m' → reachable m'.
Proof.
  intros Hr. destruct c as [id cargo | id | id cargo | id]; unfold run_call;
    unfold mbind, M_bind.
  - destruct (AddTruck id cargo m) as [e m1 | |] eqn:E; [| discriminate..].
    intros [= _ <-]. by eapply reach_Add.
  - destruct (GetTruck id m) as [e m1 | |] eqn:E; [| discriminate..].
    intros [= _ <-]. by eapply reach_Get.
  - destruct (UpdateTruckCargo id cargo m) as [e m1 | |] eqn:E; [| discriminate..].
    intros [= _ <-]. by eapply reach_Update.
  - destruct (RemoveTruck id m) as [e m1 | |] eqn:E; [| discriminate..].
    intros [= _ <-]. by eapply reach_Remove.
Qed.

Lemma worker_step_call w m w' m' :
  worker_step w m = Some (w', m') → w_call w' = w_call w.
Proof.
  destruct w as [c l]. unfold worker_step, exec, at_label. simpl. intros H.
  repeat (case_match; simplify_eq); reflexivity.
Qed.


Ltac resolve_step H :=
  repeat first
    [ discriminate H
    | match type of H with
      | context [decide ?P] => destruct (decide P); simpl in H
      | context [match ?x with _ => _ end] =>
          lazymatch x with
          | context [match _ with _ => _ end] => fail
          | _ => destruct x eqn:?; simpl in H
          end
      end ].

#[local] Arguments run_call : simpl never.

Lemma worker_step_sound w m w' m' :
  reachable (quiet m) →
  worker_inv m w →
  (holds_write w = true → writer (mu m) = true) →
  (holds_read w = true → writer (mu m) = false ∧ (0 < readers (mu m))%nat) →
  (writer (mu m) = true → readers (mu m) = 0%nat) →
  worker_step w m = Some (w', m') →
  worker_inv m' w' ∧
  (readers (mu m') + Nat.b2n (holds_read w)
   = readers (mu m) + Nat.b2n (holds_read w'))%nat ∧
  (Nat.b2n (writer (mu m')) + Nat.b2n (holds_write w)
   = Nat.b2n (writer (mu m)) + Nat.b2n (holds_write w'))%nat ∧
  (writer (mu m') = true → readers (mu m') = 0%nat) ∧
  (trucks m' = trucks m ∨ holds_write w = true) ∧
  ((settled w' = settled w ∧ quiet m' = quiet m) ∨
   (settled w = None ∧
    ∃ r, settled w' = Some (w_call w, r) ∧
         run_call (w_call w) (quiet m) = Return r (quiet m'))).
Proof.
  intros Hreach Hinv Hw Hr Hex Hstep.
  pose proof (reachable_wf _ Hreach) as Hwf.
  destruct w as [c l]. destruct m as [t [wr rd] o].
  unfold worker_step, exec, at_label in Hstep.
  unfold worker_inv, holds_write, holds_read, settled, quiet, with_mu in *.
  unfold_M.
  destruct c as [id cargo | id | id cargo | id]; destruct l as [| | | | q | r | r |];
    simpl in *; try discriminate; try done.
  all: resolve_step Hstep.
  all: injection Hstep as <- <-; simpl.
  all: try (pose proof (Hw eq_refl) as Hw1); try (pose proof (Hr eq_refl) as [Hr1 Hr2]);
       clear Hw Hr; simplify_eq.
  all: destruct_and?;
       try match goal with H : ∃ _, _ |- _ => destruct H as (? & ? & ?) end;
       try match goal with H : is_Some _ |- _ => destruct H as [? ?] end;
       simplify_eq.
  all: try lia.
  all: try match goal with
           | Ho : ?l !! ?p = None |- _ =>
               exfalso;
               assert (∃ i, t !! i = Some p) as [? Hl] by (by eexists);
               destruct (wf_lookup _ _ _ Hwf Hl) as (_ & ? & ? & _);
               simpl in *; congruence
           end.
  all: (split; [try done; try (split; [done | lia]); try naive_solver |
         split; [try done; try lia |
         split; [try done; try lia |
         split; [try done; try lia |
         split; [first [by left | by right] |]]]]]).
  all: try (left; split; reflexivity).
  all: try (right; (split; [reflexivity |]); eexists; (split; [reflexivity |]);
            rewrite run_call_idle by reflexivity; simpl;
            repeat first [ rewrite decide_True by (done || lia)
                         | rewrite decide_False by (done || lia) ];
            repeat match goal with H : _ !! _ = _ |- _ => rewrite H end;
            reflexivity).
Qed.

(** A worker running alone does what the method does. *)
Lemma run_worker_alone c m r m' :
  idle m → run_call c m = Return r m' →
  run_worker 6 {| w_call := c; w_at := entry c |} m = ({| w_call := c; w_at := LDone r |}, m').
Proof.
  intros Hi. rewrite (run_call_idle _ _ Hi). idle_memory m Hi.
  destruct c as [id cargo | id | id cargo | id]; simpl;
    unfold worker_step, exec, at_label; unfold_M.
  all: repeat (case_decide; cbn); try (by intros [= <- <-]).
  all: destruct (t !! id) as [p|] eqn:Hl; cbn; rewrite ?Hl; cbn;
       try (by intros [= <- <-]).
  all: destruct (o !! p) as [tp|] eqn:Ho; cbn; rewrite ?Ho; cbn;
       try (by intros [= <- <-]); try discriminate.
Qed.

Lemma quiet_of_idle m : idle m → quiet m = m.
Proof. intros H. by idle_memory m H. Qed.

Lemma in_sequence_snoc lin m0 m c r m' :
  in_sequence lin m0 m → run_call c m = Return r m' →
  in_sequence (lin ++ [(c, r)]) m0 m'.
Proof.
  revert m0. induction lin as [| [c0 r0] lin IH]; intros m0; simpl.
  - intros -> H. by exists m'.
  - intros (m1 & H1 & H2) H. exists m1. split; [done |]. by apply IH.
Qed.

Lemma in_sequence_reachable lin m0 m :
  reachable m0 → in_sequence lin m0 m → reachable m.
Proof.
  revert m0. induction lin as [| [c r] lin IH]; intros m0 Hr; simpl.
  - by intros ->.
  - intros (m1 & H1 & H2). eapply IH; [| exact H2]. by eapply run_call_reachable.
Qed.

(** What a worker knows depends on the map only, and on nothing at all
    while the worker does not hold the mutex. *)
Lemma worker_inv_same_map m m' w :
  trucks m' = trucks m → worker_inv m w → worker_inv m' w.
Proof. unfold worker_inv. by intros ->. Qed.

Lemma worker_inv_outside m m' w :
  holds_write w = false → holds_read w = false →
  worker_inv m w → worker_inv m' w.
Proof.
  destruct w as [c l]. unfold holds_write, holds_read, worker_inv. simpl.
  destruct c, l; try done.
Qed.

Lemma sum_list_with_zero {A} (f : A → nat) (l : list A) (x : A) :
  sum_list_with f l = 0%nat → x ∈ l → f x = 0%nat.
Proof. intros H Hin. pose proof (sum_list_with_in x f l Hin). lia. Qed.

Lemma b2n_zero b : Nat.b2n b = 0%nat → b = false.
Proof. by destruct b. Qed.

(** *** The invariant of a fleet *)

Lemma fleet_inv_launch calls m0 : reachable m0 → fleet_inv m0 [] (launch calls m0).
Proof.
  intros Hr. pose proof (reachable_idle _ Hr) as Hi.
  unfold fleet_inv. simpl. rewrite (quiet_of_idle _ Hi), Hi. simpl.
  split; [done |]. split; [done |].
  assert (H : omap settled ((λ c, {| w_call := c; w_at := entry c |}) <$> calls) = []
              ∧ readers_in ((λ c, {| w_call := c; w_at := entry c |}) <$> calls) = 0%nat
              ∧ writers_in ((λ c, {| w_call := c; w_at := entry c |}) <$> calls) = 0%nat
              ∧ Forall (worker_inv m0)
                       ((λ c, {| w_call := c; w_at := entry c |}) <$> calls)).
  { induction calls as [| c calls (IH1 & IH2 & IH3 & IH4)]; [by repeat split |].
    rewrite fmap_cons. unfold readers_in, writers_in in *. simpl.
    destruct c; simpl; rewrite ?IH1, ?IH2, ?IH3; repeat split; try done;
      by constructor. }
  destruct H as (-> & -> & -> & H). by repeat split.
Qed.

Lemma fleet_inv_step m0 lin f f' :
  fleet_inv m0 lin f → fleet_step f f' →
  ∃ lin', fleet_inv m0 lin' f'.
Proof.
  intros Hinv Hs. inversion Hs as [ws1 w ws2 m w' m' H]. subst f f'.
  destruct Hinv as (Hreach & Hseq & Hperm & Hrd & Hwr & Hex & HF). simpl in *.
  apply Forall_app in HF as [HF1 HF2]. apply Forall_cons in HF2 as [Hw HF2].
  unfold readers_in, writers_in in *.
  rewrite sum_list_with_app in Hrd, Hwr. simpl in Hrd, Hwr.
  rewrite omap_app in Hperm. simpl in Hperm.
  assert (Hhw : holds_write w = true → writer (mu m) = true).
  { intros E. rewrite E in Hwr. simpl in Hwr. destruct (writer (mu m)); [done |].
    simpl in Hwr. lia. }
  assert (Hhr : holds_read w = true → writer (mu m) = false ∧ (0 < readers (mu m))%nat).
  { intros E. rewrite E in Hrd. simpl in Hrd.
    destruct (writer (mu m)); [specialize (Hex eq_refl) |]; lia || (split; [done | lia]). }
  destruct (worker_step_sound _ _ _ _ Hreach Hw Hhw Hhr Hex H)
    as (Hw' & Hrd' & Hwr' & Hex' & Hmap & Hcommit).
  assert (Hothers : Forall (worker_inv m') ws1 ∧ Forall (worker_inv m') ws2).
  { destruct Hmap as [Hmap | Hmap].
    - split; (eapply Forall_impl; [eassumption |]); intros w2;
        by apply worker_inv_same_map.
    - specialize (Hhw Hmap). rewrite Hhw in Hwr. rewrite Hmap in Hwr. simpl in Hwr.
      specialize (Hex Hhw). rewrite Hex in Hrd.
      assert (H1 : sum_list_with (λ w, Nat.b2n (holds_write w)) ws1 = 0%nat) by lia.
      assert (H2 : sum_list_with (λ w, Nat.b2n (holds_write w)) ws2 = 0%nat) by lia.
      assert (H3 : sum_list_with (λ w, Nat.b2n (holds_read w)) ws1 = 0%nat) by lia.
      assert (H4 : sum_list_with (λ w, Nat.b2n (holds_read w)) ws2 = 0%nat) by lia.
      split; apply Forall_forall; intros w2 Hin.
      + rewrite Forall_forall in HF1. apply (worker_inv_outside m); [| | by apply HF1].
        * apply b2n_zero. by apply (sum_list_with_zero _ _ _ H1 Hin).
        * apply b2n_zero. by apply (sum_list_with_zero _ _ _ H3 Hin).
      + rewrite Forall_forall in HF2. apply (worker_inv_outside m); [| | by apply HF2].
        * apply b2n_zero. by apply (sum_list_with_zero _ _ _ H2 Hin).
        * apply b2n_zero. by apply (sum_list_with_zero _ _ _ H4 Hin). }
  destruct Hothers as [HF1' HF2'].
  assert (Hlocks :
    readers (mu m') = sum_list_with (λ w, Nat.b2n (holds_read w)) (ws1 ++ w' :: ws2) ∧
    Nat.b2n (writer (mu m')) = sum_list_with (λ w, Nat.b2n (holds_write w)) (ws1 ++ w' :: ws2)).
  { rewrite !sum_list_with_app. simpl. lia. }
  destruct Hlocks as [Hrd2 Hwr2].
  assert (HF' : Forall (worker_inv m') (ws1 ++ w' :: ws2)).
  { apply Forall_app. split; [done |]. by apply Forall_cons. }
  destruct Hcommit as [[Hset Hq] | (Hnone & r & Hset & Hrun)].
  - exists lin. unfold fleet_inv. simpl. rewrite Hq.
    split; [done |]. split; [done |]. split; [| by repeat split].
    rewrite omap_app. simpl. by rewrite Hset.
  - exists (lin ++ [(w_call w, r)]). unfold fleet_inv. simpl.
    split; [by eapply run_call_reachable |].
    split; [by eapply in_sequence_snoc |]. split; [| by repeat split].
    rewrite omap_app. simpl. rewrite Hset. rewrite Hnone in Hperm.
    rewrite Hperm, <- app_assoc. apply Permutation_app_head.
    symmetry. apply Permutation_cons_append.
Qed.

Lemma fleet_inv_nsteps m0 n f f' lin :
  fleet_inv m0 lin f → nsteps fleet_step n f f' → ∃ lin', fleet_inv m0 lin' f'.
Proof.
  intros Hinv Hn. revert lin Hinv.
  induction Hn as [| n f1 f2 f3 H _ IH]; intros lin Hinv; [by exists lin |].
  destruct (fleet_inv_step _ _ _ _ Hinv H) as [lin' Hinv']. by eapply IH.
Qed.

(** *** Termination and progress *)




Lemma fleet_step_calls f f' :
  fleet_step f f' → w_call <$> workers f' = w_call <$> workers f.
Proof.
  intros [ws1 w ws2 m w' m' H]. simpl. rewrite !fmap_app, !fmap_cons.
  by rewrite (worker_step_call _ _ _ _ H).
Qed.

Lemma fleet_nsteps_calls n f f' :
  nsteps fleet_step n f f' → w_call <$> workers f' = w_call <$> workers f.
Proof.
  induction 1 as [| n f1 f2 f3 H _ IH]; [reflexivity |].
  by rewrite IH, (fleet_step_calls _ _ H).
Qed.

Lemma calls_launch calls m : w_call <$> workers (launch calls m) = calls.
Proof.
  simpl. rewrite <- list_fmap_compose. rewrite <- (list_fmap_id calls) at 2.
  by apply list_fmap_ext.
Qed.

Lemma run_fleet_nsteps sched f f' :
  run_fleet sched f = Some f' → nsteps fleet_step (length sched) f f'.
Proof.
  revert f. induction sched as [| i sched IH]; intros f; simpl.
  - intros [= <-]. constructor.
  - destruct (workers f !! i) as [w|] eqn:Hw; [| discriminate].
    destruct (worker_step w (fmem f)) as [[w' m']|] eqn:Hs; [| discriminate].
    intros H. eapply nsteps_l; [| apply IH, H].
    destruct f as [ws m]. simpl in *.
    rewrite <- (take_drop_middle ws i w Hw) at 1.
    rewrite insert_take_drop by (by eapply lookup_lt_Some).
    by constructor.
Qed.






Lemma all_returned_settled ws :
  Forall (λ w, is_Some (returned w)) ws →
  omap settled ws = omap returned ws ∧
  readers_in ws = 0%nat ∧ writers_in ws = 0%nat.
Proof.
  unfold readers_in, writers_in.
  induction 1 as [| w ws [x Hx] _ (IH1 & IH2 & IH3)]; [done |].
  destruct w as [c l]. unfold returned in Hx. simpl in Hx.
  destruct l; try discriminate.
  change (omap settled ({| w_call := c; w_at := LDone r |} :: ws))
    with ((c, r) :: omap settled ws).
  change (omap returned ({| w_call := c; w_at := LDone r |} :: ws))
    with ((c, r) :: omap returned ws).
  rewrite IH1. simpl. rewrite IH2, IH3. unfold holds_read, holds_write. simpl.
  by destruct c.
Qed.

(** *** Concurrent calls of the four methods *)



(** X14. Concurrent calls are linearizable: when goroutines have called
    the four methods with any arguments on a registry of the program and
    every call has returned, the replies and the registry are those of
    the same calls made one after the other in some order; in particular
    the registry is again a registry of the program, with its mutex
    free. *)
Theorem fleet_linearizable calls m0 n f :
  reachable m0 →
  nsteps fleet_step n (launch calls m0) f →
  all_returned f →
  w_call <$> workers f = calls ∧
  reachable (fmem f) ∧
  ∃ lin, lin ≡ₚ omap returned (workers f) ∧ in_sequence lin m0 (fmem f).
Proof.
  intros Hr Hn Hd. pose proof (fleet_inv_launch calls m0 Hr) as Hinv0.
  destruct (fleet_inv_nsteps _ _ _ _ _ Hinv0 Hn)
    as (lin & Hreach & Hseq & Hperm & Hrd & Hwr & _).
  destruct (all_returned_settled _ Hd) as (Hset & Hr0 & Hw0).
  rewrite Hr0 in Hrd. rewrite Hw0 in Hwr. apply b2n_zero in Hwr.
  assert (Hq : quiet (fmem f) = fmem f).
  { apply quiet_of_idle. unfold idle, RWMutex_zero.
    destruct (mu (fmem f)). simpl in *. by subst. }
  rewrite Hq in Hreach, Hseq. rewrite Hset in Hperm.
  split; [by rewrite (fleet_nsteps_calls _ _ _ Hn), calls_launch |].
  split; [exact Hreach |]. by exists lin.
Qed.

Lemma fleet_linearizable_witness :
  w_call <$> workers five_final = five_calls ∧
  reachable (fmem five_final) ∧
  ∃ lin, lin ≡ₚ omap returned (workers five_final) ∧
         in_sequence lin main_m2 (fmem five_final).
Proof.
  apply (fleet_linearizable five_calls main_m2 27%nat five_final).
  - exact reachable_main_m2.
  - apply (run_fleet_nsteps five_schedule). vm_compute. reflexivity.
  - unfold all_returned.
    replace (workers five_final) with
      [ {| w_call := CallAdd "truck3" 3000; w_at := LDone (Err None) |};
        {| w_call := CallGet "truck1";
           w_at := LDone (Got {| ID := "truck1"; Cargo := 1000 |} None) |};
        {| w_call := CallUpdate "truck2" 5; w_at := LDone (Err None) |};
        {| w_call := CallRemove "truck1"; w_at := LDone (Err None) |};
        {| w_call := CallGet "truck2";
           w_at := LDone (Got {| ID := "truck2"; Cargo := 2000 |} None) |} ]
      by (vm_compute; reflexivity).
    repeat constructor; by eexists.
Defined.

(** What the five goroutines return under the schedule of the example. *)
Example five_replies :
  omap returned (workers five_final) =
    [(CallAdd "truck3" 3000, Err None);
     (CallGet "truck1", Got {| ID := "truck1"; Cargo := 1000 |} None);
     (CallUpdate "truck2" 5, Err None);
     (CallRemove "truck1", Err None);
     (CallGet "truck2", Got {| ID := "truck2"; Cargo := 2000 |} None)].
Proof. vm_compute. reflexivity. Qed.

(** *** Adding one id from several goroutines *)

Lemma run_call_held m c r m' id :
  reachable m → run_call c m = Return r m' → ¬ removes id c →
  held id m' = (held id m + adds_of id (c, r))%nat.
Proof.
  intros Hr. rewrite (run_call_idle _ _ (reachable_idle _ Hr)).
  unfold held, adds_of, removes.
  destruct c as [id' cargo | id' | id' cargo | id'].
  - case_decide; [intros [= <- <-] _; simpl; lia |].
    case_decide; [intros [= <- <-] _; simpl; lia |].
    destruct (trucks m !! id') eqn:E; intros [= <- <-] _; simpl; [lia |].
    case_decide as Hid.
    + subst id'. rewrite lookup_insert_eq, E. lia.
    + rewrite lookup_insert_ne by done. lia.
  - case_decide; [intros [= <- <-] _; simpl; lia |].
    destruct (trucks m !! id') as [p|]; [| intros [= <- <-] _; simpl; lia].
    destruct (objs m !! p); [intros [= <- <-] _; simpl; lia | discriminate].
  - case_decide; [intros [= <- <-] _; simpl; lia |].
    case_decide; [intros [= <- <-] _; simpl; lia |].
    destruct (trucks m !! id') as [p|]; [| intros [= <- <-] _; simpl; lia].
    destruct (objs m !! p); [intros [= <- <-] _; simpl; lia | discriminate].
  - case_decide; [intros [= <- <-] _; simpl; lia |].
    destruct (trucks m !! id') as [p|]; intros [= <- <-] Hne; simpl; [| lia].
    rewrite lookup_delete_ne by done. lia.
Qed.

Lemma in_sequence_held lin m0 m id :
  reachable m0 → in_sequence lin m0 m →
  Forall (λ x, ¬ removes id x.1) lin →
  held id m = (held id m0 + sum_list_with (adds_of id) lin)%nat.
Proof.
  revert m0. induction lin as [| [c r] lin IH]; intros m0 Hr; simpl.
  - intros -> _. lia.
  - intros (m1 & H1 & H2) [Hc HF]%Forall_cons. simpl in Hc.
    rewrite (IH m1 (run_call_reachable _ _ _ _ Hr H1) H2 HF).
    rewrite (run_call_held _ _ _ _ id Hr H1 Hc). unfold adds_of. lia.
Qed.

Lemma returned_calls (ws : list worker) (x : call * reply) :
  x ∈ omap returned ws → x.1 ∈ w_call <$> ws.
Proof.
  intros (w & Hw & Hx)%list_elem_of_omap. apply list_elem_of_fmap. exists w.
  split; [| done]. unfold returned in Hx. destruct (w_at w); by simplify_eq.
Qed.

(** X15. No id is added twice: when goroutines call the methods
    concurrently and none of the calls removes [id], the number of
    [AddTruck id] calls that return [nil] is 0 if the registry held [id]
    when they started, and otherwise at most 1, and exactly 1 if the
    registry holds [id] at the end. *)
Theorem one_add_wins calls m0 n f id :
  reachable m0 →
  nsteps fleet_step n (launch calls m0) f →
  all_returned f →
  Forall (λ c, ¬ removes id c) calls →
  (sum_list_with (adds_of id) (omap returned (workers f)) + held id m0)%nat
    = held id (fmem f) ∧
  (held id (fmem f) ≤ 1)%nat.
Proof.
  intros Hr Hn Hd Hno.
  pose proof (fleet_inv_launch calls m0 Hr) as Hinv0.
  destruct (fleet_inv_nsteps _ _ _ _ _ Hinv0 Hn)
    as (lin & Hreach & Hseq & Hperm & Hrd & Hwr & _).
  destruct (all_returned_settled _ Hd) as (Hset & Hr0 & Hw0).
  rewrite Hr0 in Hrd. rewrite Hw0 in Hwr. apply b2n_zero in Hwr.
  assert (Hq : quiet (fmem f) = fmem f).
  { apply quiet_of_idle. unfold idle, RWMutex_zero.
    destruct (mu (fmem f)). simpl in *. by subst. }
  rewrite Hq in Hseq. rewrite Hset in Hperm.
  split; [| unfold held; destruct (trucks (fmem f) !! id); lia].
  rewrite (in_sequence_held lin m0 (fmem f) id Hr Hseq).
  - rewrite Hperm. lia.
  - apply Forall_forall. intros x Hx. rewrite Hperm in Hx.
    apply returned_calls in Hx.
    rewrite (fleet_nsteps_calls _ _ _ Hn), calls_launch in Hx.
    rewrite Forall_forall in Hno. by apply Hno.
Qed.

Lemma one_add_wins_witness :
  (sum_list_with (adds_of "truck3") (omap returned (workers same_id_final))
   + held "truck3" main_m2)%nat = held "truck3" (fmem same_id_final) ∧
  (held "truck3" (fmem same_id_final) ≤ 1)%nat.
Proof.
  apply (one_add_wins same_id_adds main_m2 11%nat same_id_final "truck3").
  - exact reachable_main_m2.
  - apply (run_fleet_nsteps same_id_schedule). vm_compute. reflexivity.
  - unfold all_returned.
    replace (workers same_id_final) with
      [ {| w_call := CallAdd "truck3" 1; w_at := LDone (Err (Some ErrTruckExist)) |};
        {| w_call := CallAdd "truck3" 2; w_at := LDone (Err None) |} ]
      by (vm_compute; reflexivity).
    repeat constructor; by eexists.
  - repeat constructor; simpl; tauto.
Defined.

(** Of the two goroutines adding truck3, the one that took the mutex first
    wins. *)
Example same_id_replies :
  omap returned (workers same_id_final) =
    [(CallAdd "truck3" 1, Err (Some ErrTruckExist)); (CallAdd "truck3" 2, Err None)] ∧
  result (GetTruck "truck3") (fmem same_id_final)
    = Some ({| ID := "truck3"; Cargo := 2 |}, None).
Proof. split; vm_compute; reflexivity. Qed.

(** *** Updating one truck from several goroutines *)

Lemma UpdateTruckCargo_stores m id k :
  reachable m → is_Some (trucks m !! id) → 0 ≤ k →
  ∃ m', run_call (CallUpdate id k) m = Return (Err None) m' ∧
        is_Some (trucks m' !! id) ∧
        GetTruck id m' = Return ({| ID := id; Cargo := k |}, None) m'.
Proof.
  intros Hr [p Hl] Hk. pose proof (reachable_wf _ Hr) as Hwf.
  pose proof (wf_idle _ Hwf) as Hi.
  destruct (wf_lookup _ _ _ Hwf Hl) as (Hid & t & Ho & Ht & _).
  rewrite (run_call_idle _ _ Hi).
  rewrite decide_False by done. rewrite decide_False by lia. rewrite Hl, Ho.
  eexists. split; [reflexivity |]. split; [by exists p |].
  apply (GetTruck_present _ id p); [done | done | done |]. simpl.
  rewrite list_lookup_insert_eq by (by eapply lookup_lt_Some). by rewrite Ht.
Qed.

Lemma in_sequence_updates lin m0 m id :
  reachable m0 → is_Some (trucks m0 !! id) →
  in_sequence lin m0 m →
  Forall (λ x, updates id x.1) lin →
  Forall (λ x, x.2 = Err None) lin ∧
  (lin ≠ [] →
   ∃ k, CallUpdate id k ∈ lin.*1 ∧
        GetTruck id m = Return ({| ID := id; Cargo := k |}, None) m).
Proof.
  revert m0. induction lin as [| [c r] lin IH]; intros m0 Hr Hin; simpl.
  - intros _ _. split; [constructor | done].
  - intros (m1 & H1 & H2) [(k & Hc & Hk) HF]%Forall_cons. simpl in Hc. subst c.
    destruct (UpdateTruckCargo_stores m0 id k Hr Hin Hk) as (m1' & Hrun & Hin1 & Hget).
    rewrite H1 in Hrun. injection Hrun as -> <-.
    destruct (IH m1 (run_call_reachable _ _ _ _ Hr H1) Hin1 H2 HF) as [Hall Hlast].
    split; [by constructor |]. intros _.
    destruct lin as [| x lin].
    + simpl in H2. subst m. exists k. split; [left | done].
    + destruct Hlast as (k' & Hk' & Hget'); [done |].
      exists k'. split; [by right | done].
Qed.

(** X16. No update is lost or torn: when goroutines concurrently call
    [UpdateTruckCargo] on one id that the registry holds, each with a
    cargo that is not negative, every call returns [nil] and the truck
    ends with the cargo of one of the calls. *)
Theorem updates_not_lost calls m0 n f id :
  reachable m0 →
  is_Some (trucks m0 !! id) →
  Forall (updates id) calls →
  calls ≠ [] →
  nsteps fleet_step n (launch calls m0) f →
  all_returned f →
  Forall (λ x, x.2 = Err None) (omap returned (workers f)) ∧
  ∃ k, CallUpdate id k ∈ calls ∧
       GetTruck id (fmem f) = Return ({| ID := id; Cargo := k |}, None) (fmem f).
Proof.
  intros Hr Hin Hup Hne Hn Hd.
  pose proof (fleet_inv_launch calls m0 Hr) as Hinv0.
  destruct (fleet_inv_nsteps _ _ _ _ _ Hinv0 Hn)
    as (lin & Hreach & Hseq & Hperm & Hrd & Hwr & _).
  destruct (all_returned_settled _ Hd) as (Hset & Hr0 & Hw0).
  rewrite Hr0 in Hrd. rewrite Hw0 in Hwr. apply b2n_zero in Hwr.
  assert (Hq : quiet (fmem f) = fmem f).
  { apply quiet_of_idle. unfold idle, RWMutex_zero.
    destruct (mu (fmem f)). simpl in *. by subst. }
  rewrite Hq in Hseq. rewrite Hset in Hperm.
  pose proof (fleet_nsteps_calls _ _ _ Hn) as Hcalls. rewrite calls_launch in Hcalls.
  assert (Hlin : Forall (λ x, updates id x.1) lin).
  { apply Forall_forall. intros x Hx. rewrite Hperm in Hx.
    apply returned_calls in Hx. rewrite Hcalls in Hx.
    rewrite Forall_forall in Hup. by apply Hup. }
  destruct (in_sequence_updates lin m0 (fmem f) id Hr Hin Hseq Hlin) as [Hall Hlast].
  split; [by rewrite <- Hperm |].
  destruct Hlast as (k & Hk & Hget).
  - intros ->. apply Permutation_nil_l in Hperm.
    destruct calls as [| c calls]; [done |]. unfold all_returned in Hd.
    destruct (workers f) as [| w ws]; [discriminate |].
    apply Forall_cons in Hd as [[x Hx] _]. simpl in Hperm. rewrite Hx in Hperm.
    discriminate.
  - exists k. split; [| done].
    apply list_elem_of_fmap in Hk as (x & Hx & Hxin). rewrite Hperm in Hxin.
    apply returned_calls in Hxin. by rewrite Hcalls, <- Hx in Hxin.
Qed.

Lemma updates_not_lost_witness :
  Forall (λ x, x.2 = Err None) (omap returned (workers two_updates_final)) ∧
  ∃ k, CallUpdate "truck1" k ∈ two_updates ∧
       GetTruck "truck1" (fmem two_updates_final)
         = Return ({| ID := "truck1"; Cargo := k |}, None) (fmem two_updates_final).
Proof.
  apply (updates_not_lost two_updates main_m2 12%nat two_updates_final "truck1").
  - exact reachable_main_m2.
  - exists 0%nat. reflexivity.
  - repeat constructor; eexists; (split; [reflexivity | lia]).
  - discriminate.
  - apply (run_fleet_nsteps two_updates_schedule). vm_compute. reflexivity.
  - unfold all_returned.
    replace (workers two_updates_final) with
      [ {| w_call := CallUpdate "truck1" 7; w_at := LDone (Err None) |};
        {| w_call := CallUpdate "truck1" 9; w_at := LDone (Err None) |} ]
      by (vm_compute; reflexivity).
    repeat constructor; by eexists.
Defined.

(** The goroutine that took the mutex last decides the cargo. *)
Example two_updates_result :
  result (GetTruck "truck1") (fmem two_updates_final)
    = Some ({| ID := "truck1"; Cargo := 7 |}, None).
Proof. vm_compute. reflexivity. Qed.

(** ** The registry as a map from ids to cargos *)

Lemma view_lookup m id :
  view m !! id = trucks m !! id ≫= λ p, Cargo <$> objs m !! p.
Proof. unfold view. apply lookup_omap. Qed.

Lemma view_lookup_wf m id :
  wf m →
  view m !! id = match trucks m !! id with
                 | Some p => Cargo <$> objs m !! p
                 | None => None
                 end ∧
  (is_Some (view m !! id) ↔ is_Some (trucks m !! id)).
Proof.
  intros Hwf. rewrite view_lookup. destruct (trucks m !! id) as [p|] eqn:Hl; simpl.
  - split; [done |]. destruct (wf_lookup _ _ _ Hwf Hl) as (_ & t & -> & _). simpl.
    split; intros _; by eexists.
  - split; [done |]. split; intros [? ?]; discriminate.
Qed.

(** Each method against the same operation on the map of stored cargos. *)
Lemma run_call_on_view c m :
  reachable m →
  ∃ r m', run_call c m = Return r m' ∧ on_view c (view m) = (r, view m').
Proof.
  intros Hr. pose proof (reachable_wf _ Hr) as Hwf. pose proof (wf_idle _ Hwf) as Hi.
  rewrite (run_call_idle _ _ Hi). unfold on_view.
  destruct c as [id cargo | id | id cargo | id].
  - case_decide; [by eexists _, _ |]. case_decide; [by eexists _, _ |].
    destruct (view_lookup_wf m id Hwf) as [Hv _]. rewrite Hv.
    destruct (trucks m !! id) as [p|] eqn:Hl.
    + destruct (wf_lookup _ _ _ Hwf Hl) as (_ & t & -> & _). by eexists _, _.
    + eexists _, _. split; [reflexivity |]. f_equal.
      apply map_eq. intros i. rewrite view_lookup. simpl.
      destruct (decide (i = id)) as [-> | Hne].
      * rewrite !lookup_insert_eq. simpl. by rewrite list_lookup_middle.
      * rewrite !lookup_insert_ne by done. rewrite view_lookup.
        destruct (trucks m !! i) as [q|] eqn:Hq; [| done]. simpl.
        destruct (wf_lookup _ _ _ Hwf Hq) as (_ & t & Ho & _).
        by rewrite (lookup_app_l_Some _ _ _ _ Ho), Ho.
  - case_decide; [by eexists _, _ |].
    destruct (view_lookup_wf m id Hwf) as [Hv _]. rewrite Hv.
    destruct (trucks m !! id) as [p|] eqn:Hl; [| by eexists _, _].
    destruct (wf_lookup _ _ _ Hwf Hl) as (_ & t & -> & <- & _). simpl.
    eexists _, _. split; [reflexivity |]. by destruct t.
  - case_decide; [by eexists _, _ |]. case_decide; [by eexists _, _ |].
    destruct (view_lookup_wf m id Hwf) as [Hv _]. rewrite Hv.
    destruct (trucks m !! id) as [p|] eqn:Hl; [| by eexists _, _].
    destruct (wf_lookup _ _ _ Hwf Hl) as (_ & t & Ho & Ht & _). rewrite Ho. simpl.
    eexists _, _. split; [reflexivity |]. f_equal.
    apply map_eq. intros i. rewrite view_lookup. simpl.
    destruct (decide (i = id)) as [-> | Hne].
    + rewrite lookup_insert_eq, Hl. simpl.
      by rewrite list_lookup_insert_eq by (by eapply lookup_lt_Some).
    + rewrite lookup_insert_ne by done. rewrite view_lookup.
      destruct (trucks m !! i) as [q|] eqn:Hq; [| done]. simpl.
      rewrite list_lookup_insert_ne; [done |]. intros ->.
      destruct (wf_lookup _ _ _ Hwf Hq) as (_ & t' & Ho' & Ht' & _). congruence.
  - case_decide; [by eexists _, _ |].
    destruct (view_lookup_wf m id Hwf) as [Hv _]. rewrite Hv.
    destruct (trucks m !! id) as [p|] eqn:Hl; [| by eexists _, _].
    destruct (wf_lookup _ _ _ Hwf Hl) as (_ & t & -> & _). simpl.
    eexists _, _. split; [reflexivity |]. f_equal.
    apply map_eq. intros i. rewrite view_lookup. simpl.
    destruct (decide (i = id)) as [-> | Hne].
    + by rewrite !lookup_delete_eq.
    + rewrite !lookup_delete_ne by done. by rewrite view_lookup.
Qed.

(** X17. The registry behaves as a map from ids to cargos: on a registry
    of the program every call returns, and its reply and the cargos
    stored afterwards are those the same operation on the map of stored
    cargos gives. *)
Theorem registry_is_a_map c m :
  reachable m →
  ∃ r m', run_call c m = Return r m' ∧ on_view c (view m) = (r, view m').
Proof.
  intros Hr. destruct (run_call_on_view c m Hr) as (r & m' & Hrun & Hview).
  exists r, m'. split; [exact Hrun | exact Hview].
Qed.

Lemma registry_is_a_map_witness :
  ∃ r m', run_call (CallUpdate "truck1" 1500) main_m2 = Return r m' ∧
          on_view (CallUpdate "truck1" 1500) (view main_m2) = (r, view m').
Proof. apply (registry_is_a_map (CallUpdate "truck1" 1500) main_m2). exact reachable_main_m2. Defined.

(** The map of the registry of [main] after its two adds. *)
Example view_main_m2 : view main_m2 = {[ "truck1" := 1000; "truck2" := 2000 ]}.
Proof. vm_compute. reflexivity. Qed.

(** Registries that store the same cargos answer alike. *)
Lemma same_view_same_answers m1 m2 :
  reachable m1 → reachable m2 → view m1 = view m2 → same_answers m1 m2.
Proof.
  intros H1 H2 Hv id r Hget.
  destruct (run_call_on_view (CallGet id) m1 H1) as (r1 & m1' & Hr1 & Hs1).
  destruct (run_call_on_view (CallGet id) m2 H2) as (r2 & m2' & Hr2 & Hs2).
  rewrite Hv, Hs2 in Hs1. injection Hs1 as -> _.
  unfold run_call, mbind, M_bind in Hr1, Hr2. rewrite Hget in Hr1.
  injection Hr1 as <-.
  destruct (GetTruck id m2) as [[t e] m2'' | |] eqn:E; try discriminate.
  rewrite (GetTruck_unchanged _ _ _ _ E) in *. simpl in Hr2.
  injection Hr2 as Ht. destruct r as [t' e']. simpl in Ht. by simplify_eq.
Qed.

Lemma on_view_commute a b s :
  call_id a ≠ call_id b →
  (on_view b (on_view a s).2).1 = (on_view b s).1 ∧
  (on_view a (on_view b s).2).1 = (on_view a s).1 ∧
  (on_view b (on_view a s).2).2 = (on_view a (on_view b s).2).2.
Proof.
  intros Hne.
  destruct a as [ia ca | ia | ia ca | ia]; destruct b as [ib cb | ib | ib cb | ib];
    simpl in Hne; unfold on_view;
    repeat (case_decide; simpl; try done);
    destruct (s !! ia) eqn:Ea; destruct (s !! ib) eqn:Eb; simpl;
    rewrite ?lookup_insert_ne, ?lookup_delete_ne by done; rewrite ?Ea, ?Eb; simpl;
    repeat split; try done;
    first [ by apply insert_insert_ne
          | by apply delete_insert_ne
          | by (symmetry; apply delete_insert_ne)
          | by apply delete_delete ].
Qed.

Lemma two_calls_run a b m :
  reachable m →
  ∃ ra rb ma mab,
    run_call a m = Return ra ma ∧ run_call b ma = Return rb mab ∧
    two_calls a b m = Return (ra, rb) mab ∧
    reachable mab ∧
    ra = (on_view a (view m)).1 ∧
    rb = (on_view b (on_view a (view m)).2).1 ∧
    view mab = (on_view b (on_view a (view m)).2).2.
Proof.
  intros Hr.
  destruct (run_call_on_view a m Hr) as (ra & ma & Ha & Hva).
  pose proof (run_call_reachable _ _ _ _ Hr Ha) as Hra.
  destruct (run_call_on_view b ma Hra) as (rb & mab & Hb & Hvb).
  exists ra, rb, ma, mab. split; [done |]. split; [done |]. split.
  { unfold two_calls, mbind, M_bind. by rewrite Ha, Hb. }
  split; [by eapply run_call_reachable |].
  rewrite Hva. simpl. by rewrite Hvb.
Qed.

(** X18. Calls on different ids do not interfere: on a registry of the
    program, two calls of any of the four methods on different ids give
    the same two replies in either order, and leave registries that store
    the same cargos and answer every [GetTruck] alike. *)
Theorem calls_commute a b m ra rb m1 :
  reachable m → call_id a ≠ call_id b →
  two_calls a b m = Return (ra, rb) m1 →
  ∃ m2, two_calls b a m = Return (rb, ra) m2 ∧
        view m2 = view m1 ∧ same_answers m1 m2.
Proof.
  intros Hr Hne H.
  destruct (two_calls_run a b m Hr) as (ra1 & rb1 & ma & mab & _ & _ & Hab & Hrab & E1 & E2 & E3).
  destruct (two_calls_run b a m Hr) as (rb2 & ra2 & mb & mba & _ & _ & Hba & Hrba & E4 & E5 & E6).
  rewrite H in Hab. injection Hab as <- <- <-.
  destruct (on_view_commute a b (view m) Hne) as (C1 & C2 & C3).
  exists mba. rewrite Hba.
  assert (Hv : view mba = view m1) by (by rewrite E6, E3, C3).
  split; [| split; [exact Hv |]].
  - by rewrite E1, E2, E4, E5, C1, C2.
  - by apply same_view_same_answers.
Qed.

Lemma calls_commute_witness :
  ∃ m2, two_calls (CallRemove "truck2") (CallAdd "truck3" 3000) main_m2
          = Return (Err None, Err None) m2 ∧
        view m2 = view (after (two_calls (CallAdd "truck3" 3000) (CallRemove "truck2")) main_m2) ∧
        same_answers (after (two_calls (CallAdd "truck3" 3000) (CallRemove "truck2")) main_m2) m2.
Proof.
  apply (calls_commute (CallAdd "truck3" 3000) (CallRemove "truck2") main_m2).
  - exact reachable_main_m2.
  - discriminate.
  - vm_compute. reflexivity.
Defined.
